(** * Bounded buffer of [lab1/producer_consumer.c]

    A shallow embedding of the ring buffer, of the critical sections of the
    producer, consumer and shutdown-watcher threads, and of their
    interleaving, followed by the properties of the buffer protocol.

    Conventions of the embedding.
    - C [int] values are integers of [Z] in [INT_MIN, INT_MAX] (32 bits on
      the MinGW and Linux targets named in the file header); signed overflow,
      division by zero and an access outside the allocated block are
      undefined behaviour and are reported as a [fault].
    - [unsigned long] wraps modulo [ULONG_MODULUS] (LP64: 64 bits).
    - Every access to the buffer sits between [pthread_mutex_lock] and
      [pthread_mutex_unlock] / [pthread_cond_wait] of the single mutex, so a
      critical section is one atomic transition of the system; the calls it
      makes to the pthread API and to [printf] are recorded, in order, as a
      list of [effect]s. *)

From stdpp Require Import base tactics option list numbers.
From Stdlib Require Import ZArith Lia.

Open Scope Z_scope.

(** ** Undefined behaviour as an error monad *)

Inductive fault := OutOfBounds | SignedOverflow | DivisionByZero.

Inductive exec (A : Type) : Type :=
  | Ret (a : A)
  | Undef (f : fault).
Arguments Ret {A} a.
Arguments Undef {A} f.

#[global] Instance exec_ret : MRet exec := fun A a => Ret a.
#[global] Instance exec_bind : MBind exec := fun A B k m =>
  match m with
  | Ret a => k a
  | Undef f => Undef f
  end.

(** ** Machine integers *)

Definition INT_MAX : Z := 2147483647.
Definition INT_MIN : Z := -2147483648.
Definition ULONG_MODULUS : Z := 2 ^ 64.

(** The result of a signed [int] operation whose mathematical value is [z]. *)
Definition int_of (z : Z) : exec Z :=
  if decide (INT_MIN <= z <= INT_MAX) then Ret z else Undef SignedOverflow.

(** [a % b] on [int]: truncated remainder. *)
Definition int_rem (a b : Z) : exec Z :=
  if decide (b = 0) then Undef DivisionByZero
  else if decide (a = INT_MIN /\ b = -1) then Undef SignedOverflow
  else Ret (Z.rem a b).

(** [n++] on [unsigned long]. *)
Definition ulong_incr (n : Z) : Z := (n + 1) mod ULONG_MODULUS.

(** ** The block returned by [malloc] *)

(** [p[i]] as an rvalue, for a block holding the cells [d]. *)
Definition load (d : list Z) (i : Z) : exec Z :=
  if decide (0 <= i) then
    match d !! Z.to_nat i with
    | Some x => Ret x
    | None => Undef OutOfBounds
    end
  else Undef OutOfBounds.

(** [p[i] = v]. *)
Definition store (d : list Z) (i : Z) (v : Z) : exec (list Z) :=
  if decide (0 <= i < Z.of_nat (length d)) then Ret (<[Z.to_nat i := v]> d)
  else Undef OutOfBounds.

(** [malloc(sizeof(int) * n)]: [n] cells whose indeterminate contents are
    given by [junk]. *)
Definition malloc_int (junk : nat -> Z) (n : Z) : list Z :=
  junk <$> seq 0 (Z.to_nat n).

(** ** [ring_buffer_t] *)

(** The mutex and the two condition variables are not fields of the model:
    the mutex is the atomicity of the critical sections and the condition
    variables are the [c_waiting] / [p_waiting] states of the threads.
    [shutdown] is an [int] that only ever holds 0 or 1 and is only tested
    for truth. *)
Record ring_buffer := mk_ring_buffer {
  data : list Z;
  size : Z;
  head : Z;
  tail : Z;
  count : Z;
  shutdown : bool;
  produced_total : Z;
  consumed_total : Z
}.

Definition set_shutdown (rb : ring_buffer) : ring_buffer :=
  mk_ring_buffer (data rb) (size rb) (head rb) (tail rb) (count rb) true
    (produced_total rb) (consumed_total rb).

(** [rb_init], lines 83-97. [heap = None] is [malloc] returning [NULL], which
    ends the process, as does a failing [pthread_*_init]. *)
Definition rb_init (heap : option (nat -> Z)) (sz : Z) : option ring_buffer :=
  match heap with
  | None => None
  | Some junk => Some (mk_ring_buffer (malloc_int junk sz) sz 0 0 0 false 0 0)
  end.

(** [rb_enqueue], lines 106-112; the result pairs the returned status with
    the updated buffer. *)
Definition rb_enqueue (rb : ring_buffer) (value : Z) : exec (Z * ring_buffer) :=
  d ← store (data rb) (tail rb) value;
  t1 ← int_of (tail rb + 1);
  t ← int_rem t1 (size rb);
  c ← int_of (count rb + 1);
  mret (0, mk_ring_buffer d (size rb) (head rb) t c (shutdown rb)
             (ulong_incr (produced_total rb)) (consumed_total rb)).

(** [rb_dequeue], lines 114-120; the result is the status, the value stored
    through [out], and the updated buffer. *)
Definition rb_dequeue (rb : ring_buffer) : exec (Z * Z * ring_buffer) :=
  out ← load (data rb) (head rb);
  h1 ← int_of (head rb + 1);
  h ← int_rem h1 (size rb);
  c ← int_of (count rb - 1);
  mret (0, out, mk_ring_buffer (data rb) (size rb) h (tail rb) c (shutdown rb)
                  (produced_total rb) (ulong_incr (consumed_total rb))).

(** ** Calls made by a critical section *)

Inductive cond_var := not_empty | not_full.

(** The lines written by [printf]. *)
Inductive line :=
  | line_sigint
  | line_produced (value cnt : Z)
  | line_producer_closes
  | line_consumed (id value cnt : Z)
  | line_consumer_closes (id : Z)
  | line_summary
  | line_summary_produced (n : Z)
  | line_summary_consumed (n : Z)
  | line_summary_remaining (n : Z).

Inductive effect :=
  | mutex_lock
  | mutex_unlock
  | cond_wait (c : cond_var)
  | cond_signal (c : cond_var)
  | cond_broadcast (c : cond_var)
  | printf (l : line).

(** ** [shutdown_watcher], lines 72-79 (after the polling loop) *)

Definition shutdown_watcher (rb : ring_buffer) : ring_buffer * list effect :=
  if negb (shutdown rb) then
    (set_shutdown rb,
     [mutex_lock; printf line_sigint; cond_broadcast not_empty;
      cond_broadcast not_full; mutex_unlock])
  else (rb, [mutex_lock; mutex_unlock]).

(** ** [producer_main] *)

(** Lines 131-136 and 157: the producer has read [g_stop_flag] as set. *)
Definition producer_main_stop (rb : ring_buffer) : ring_buffer * list effect :=
  (set_shutdown rb,
   [mutex_lock; cond_broadcast not_empty; cond_broadcast not_full;
    mutex_unlock; printf line_producer_closes]).

Inductive put_status :=
  | put_success (next_value : Z)
  | put_rejected
  | put_blocked.

(** Lines 144-154, entered with the mutex held: from [pthread_mutex_lock]
    with [pre = [mutex_lock]], or on return from [pthread_cond_wait] with
    [pre = []]. *)
Definition producer_main_locked (pre : list effect) (value : Z) (rb : ring_buffer)
  : exec (put_status * ring_buffer * list effect) :=
  if (count rb =? size rb) && negb (shutdown rb) then
    mret (put_blocked, rb, pre ++ [cond_wait not_full])
  else if shutdown rb then
    mret (put_rejected, rb, pre ++ [mutex_unlock; printf line_producer_closes])
  else
    '(_, rb') ← rb_enqueue rb value;
    next ← int_of (value + 1);
    mret (put_success next, rb',
          pre ++ [printf (line_produced value (count rb'));
                  cond_signal not_empty; mutex_unlock]).

(** Lines 141-154. *)
Definition producer_main_put (value : Z) (rb : ring_buffer)
  : exec (put_status * ring_buffer * list effect) :=
  if shutdown rb then
    mret (put_rejected, rb, [mutex_lock; mutex_unlock; printf line_producer_closes])
  else producer_main_locked [mutex_lock] value rb.

(** The producer is woken inside [pthread_cond_wait] (line 145). *)
Definition producer_main_resume (value : Z) (rb : ring_buffer)
  : exec (put_status * ring_buffer * list effect) :=
  producer_main_locked [] value rb.

(** ** [consumer_main] *)

Inductive take_status :=
  | take_success (value : Z)
  | take_drained
  | take_blocked.

(** Lines 180-192, after the wait loop. *)
Definition consumer_main_decide (pre : list effect) (id : Z) (rb : ring_buffer)
  : exec (take_status * ring_buffer * list effect) :=
  if shutdown rb && (count rb =? 0) then
    mret (take_drained, rb, pre ++ [mutex_unlock; printf (line_consumer_closes id)])
  else
    '(_, v, rb') ← rb_dequeue rb;
    mret (take_success v, rb',
          pre ++ [cond_signal not_full; mutex_unlock;
                  printf (line_consumed id v (count rb'))]).

(** Lines 169-192, entered with the mutex held; [stop] is the value read
    from [g_stop_flag] in the loop body. *)
Definition consumer_main_locked (pre : list effect) (id : Z) (stop : bool)
    (rb : ring_buffer) : exec (take_status * ring_buffer * list effect) :=
  if (count rb =? 0) && negb (shutdown rb) then
    if stop then
      consumer_main_decide
        (pre ++ [cond_broadcast not_empty; cond_broadcast not_full])
        id (set_shutdown rb)
    else mret (take_blocked, rb, pre ++ [cond_wait not_empty])
  else consumer_main_decide pre id rb.

(** Lines 167-192. *)
Definition consumer_main_take (id : Z) (stop : bool) (rb : ring_buffer)
  : exec (take_status * ring_buffer * list effect) :=
  consumer_main_locked [mutex_lock] id stop rb.

(** The consumer is woken inside [pthread_cond_wait] (line 177). *)
Definition consumer_main_resume (id : Z) (stop : bool) (rb : ring_buffer)
  : exec (take_status * ring_buffer * list effect) :=
  consumer_main_locked [] id stop rb.

(** ** [main] *)

(** Lines 233-237, 248-252 and 266-270: a thread could not be started. *)
Definition main_abort (rb : ring_buffer) : ring_buffer * list effect :=
  (set_shutdown rb,
   [mutex_lock; cond_broadcast not_empty; cond_broadcast not_full;
    mutex_unlock]).

(** Lines 282-285: the final report, after every [pthread_join]. *)
Definition main_summary (rb : ring_buffer) : ring_buffer * list effect :=
  (rb,
   [printf line_summary;
    printf (line_summary_produced (produced_total rb));
    printf (line_summary_consumed (consumed_total rb));
    printf (line_summary_remaining (count rb))]).

(** ** [handle_sigint], lines 60-63 *)

Definition handle_sigint (g_stop_flag : bool) : bool := true.

(** ** The threads and their interleaving *)

(** Where the producer is in [producer_main]; [value] is its local counter. *)
Inductive producer_pc :=
  | p_check (value : Z)      (* line 130, about to read [g_stop_flag] *)
  | p_sleep (value : Z)      (* line 139, the flag was read as clear *)
  | p_waiting (value : Z)    (* line 145, blocked on [not_full] *)
  | p_woken (value : Z)      (* line 145, unblocked, re-acquiring the mutex *)
  | p_exited.

Inductive consumer_pc :=
  | c_loop                   (* line 167 *)
  | c_waiting                (* line 177, blocked on [not_empty] *)
  | c_woken                  (* line 177, unblocked, re-acquiring the mutex *)
  | c_exited.

Inductive watcher_pc :=
  | w_polling                (* lines 68-71 *)
  | w_exited.

#[global] Instance consumer_pc_eq_dec : EqDecision consumer_pc.
Proof. solve_decision. Defined.

Record system := mk_system {
  buffer : ring_buffer;
  g_stop_flag : bool;
  producer : producer_pc;
  consumers : list consumer_pc;
  watcher : watcher_pc
}.

(** [main], lines 217-274, when every [pthread_create] succeeds: consumer
    [i] of the list has [id = i + 1]. *)
Definition start (rb : ring_buffer) (N : nat) : system :=
  mk_system rb false (p_check 1) (replicate N c_loop) w_polling.

Definition consumer_id (i : nat) : Z := Z.of_nat i + 1.

(** *** Condition variables *)

Definition wake_producer (p : producer_pc) : producer_pc :=
  match p with
  | p_waiting v => p_woken v
  | _ => p
  end.

Definition wake_consumer (c : consumer_pc) : consumer_pc :=
  match c with
  | c_waiting => c_woken
  | _ => c
  end.

(** [pthread_cond_signal(&not_empty)]: one blocked consumer, whichever, if
    there is one. *)
Inductive wake_one : list consumer_pc -> list consumer_pc -> Prop :=
  | wake_one_none cs : c_waiting ∉ cs -> wake_one cs cs
  | wake_one_at cs i :
      cs !! i = Some c_waiting -> wake_one cs (<[i := c_woken]> cs).

Inductive deliver1 :
  effect -> producer_pc * list consumer_pc -> producer_pc * list consumer_pc -> Prop :=
  | deliver_signal_not_empty p cs cs' :
      wake_one cs cs' -> deliver1 (cond_signal not_empty) (p, cs) (p, cs')
  | deliver_signal_not_full p cs :
      deliver1 (cond_signal not_full) (p, cs) (wake_producer p, cs)
  | deliver_broadcast_not_empty p cs :
      deliver1 (cond_broadcast not_empty) (p, cs) (p, wake_consumer <$> cs)
  | deliver_broadcast_not_full p cs :
      deliver1 (cond_broadcast not_full) (p, cs) (wake_producer p, cs)
  | deliver_lock t : deliver1 mutex_lock t t
  | deliver_unlock t : deliver1 mutex_unlock t t
  | deliver_wait c t : deliver1 (cond_wait c) t t
  | deliver_printf l t : deliver1 (printf l) t t.

Inductive deliver :
  list effect -> producer_pc * list consumer_pc -> producer_pc * list consumer_pc -> Prop :=
  | deliver_nil t : deliver [] t t
  | deliver_cons e es t1 t2 t3 :
      deliver1 e t1 t2 -> deliver es t2 t3 -> deliver (e :: es) t1 t3.

(** *** Transitions *)

Inductive action :=
  | act_sigint
  | act_watcher
  | act_producer_main_stop
  | act_producer_go
  | act_put (value : Z)
  | act_put_rejected
  | act_put_blocked
  | act_take (i : nat) (value : Z)
  | act_take_drained (i : nat)
  | act_take_blocked (i : nat)
  | act_spurious_producer
  | act_spurious_consumer (i : nat)
  | act_summary (produced consumed remaining : Z).

Definition producer_pc_after (value : Z) (st : put_status) : producer_pc :=
  match st with
  | put_success next => p_check next
  | put_rejected => p_exited
  | put_blocked => p_waiting value
  end.

Definition put_action (value : Z) (st : put_status) : action :=
  match st with
  | put_success _ => act_put value
  | put_rejected => act_put_rejected
  | put_blocked => act_put_blocked
  end.

Definition consumer_pc_after (st : take_status) : consumer_pc :=
  match st with
  | take_success _ => c_loop
  | take_drained => c_exited
  | take_blocked => c_waiting
  end.

Definition take_action (i : nat) (st : take_status) : action :=
  match st with
  | take_success v => act_take i v
  | take_drained => act_take_drained i
  | take_blocked => act_take_blocked i
  end.

Definition all_exited (s : system) : Prop :=
  watcher s = w_exited /\ producer s = p_exited /\
  forall c, c ∈ consumers s -> c = c_exited.

(** One transition per critical section (or flag access) of a thread. A
    section that runs into undefined behaviour has no transition: the runs
    are the defined executions of the program. *)
Inductive step : system -> action -> system -> Prop :=
  (* [handle_sigint] *)
  | step_sigint s :
      step s act_sigint
        (mk_system (buffer s) (handle_sigint (g_stop_flag s)) (producer s)
           (consumers s) (watcher s))
  (* [shutdown_watcher] leaves its loop *)
  | step_watcher s rb' evs p' cs' :
      watcher s = w_polling -> g_stop_flag s = true ->
      shutdown_watcher (buffer s) = (rb', evs) ->
      deliver evs (producer s, consumers s) (p', cs') ->
      step s act_watcher (mk_system rb' (g_stop_flag s) p' cs' w_exited)
  (* line 130, flag set *)
  | step_producer_main_stop s v rb' evs p' cs' :
      producer s = p_check v -> g_stop_flag s = true ->
      producer_main_stop (buffer s) = (rb', evs) ->
      deliver evs (producer s, consumers s) (p', cs') ->
      step s act_producer_main_stop
        (mk_system rb' (g_stop_flag s) p_exited cs' (watcher s))
  (* line 130, flag clear *)
  | step_producer_go s v :
      producer s = p_check v -> g_stop_flag s = false ->
      step s act_producer_go
        (mk_system (buffer s) (g_stop_flag s) (p_sleep v) (consumers s) (watcher s))
  (* lines 141-154 *)
  | step_put s v st rb' evs p' cs' :
      producer s = p_sleep v ->
      producer_main_put v (buffer s) = Ret (st, rb', evs) ->
      deliver evs (producer s, consumers s) (p', cs') ->
      step s (put_action v st)
        (mk_system rb' (g_stop_flag s) (producer_pc_after v st) cs' (watcher s))
  | step_put_resume s v st rb' evs p' cs' :
      producer s = p_woken v ->
      producer_main_resume v (buffer s) = Ret (st, rb', evs) ->
      deliver evs (producer s, consumers s) (p', cs') ->
      step s (put_action v st)
        (mk_system rb' (g_stop_flag s) (producer_pc_after v st) cs' (watcher s))
  (* lines 167-192 *)
  | step_take s i st rb' evs p' cs' :
      consumers s !! i = Some c_loop ->
      consumer_main_take (consumer_id i) (g_stop_flag s) (buffer s) = Ret (st, rb', evs) ->
      deliver evs (producer s, consumers s) (p', cs') ->
      step s (take_action i st)
        (mk_system rb' (g_stop_flag s) p' (<[i := consumer_pc_after st]> cs') (watcher s))
  | step_take_resume s i st rb' evs p' cs' :
      consumers s !! i = Some c_woken ->
      consumer_main_resume (consumer_id i) (g_stop_flag s) (buffer s) = Ret (st, rb', evs) ->
      deliver evs (producer s, consumers s) (p', cs') ->
      step s (take_action i st)
        (mk_system rb' (g_stop_flag s) p' (<[i := consumer_pc_after st]> cs') (watcher s))
  (* [pthread_cond_wait] may return without a signal *)
  | step_spurious_producer s v :
      producer s = p_waiting v ->
      step s act_spurious_producer
        (mk_system (buffer s) (g_stop_flag s) (p_woken v) (consumers s) (watcher s))
  | step_spurious_consumer s i :
      consumers s !! i = Some c_waiting ->
      step s (act_spurious_consumer i)
        (mk_system (buffer s) (g_stop_flag s) (producer s)
           (<[i := c_woken]> (consumers s)) (watcher s))
  (* [main], lines 277-285: every thread has been joined *)
  | step_summary s rb' evs :
      all_exited s ->
      main_summary (buffer s) = (rb', evs) ->
      step s (act_summary (produced_total (buffer s)) (consumed_total (buffer s))
                (count (buffer s)))
        (mk_system rb' (g_stop_flag s) (producer s) (consumers s) (watcher s)).

(** Runs, latest action last. *)
Inductive run : system -> list action -> system -> Prop :=
  | run_nil s : run s [] s
  | run_snoc s tr s1 a s2 :
      run s tr s1 -> step s1 a s2 -> run s (tr ++ [a]) s2.

(** The runs of the program for a validated [BufferSize] and [N] consumers. *)
Definition reachable (junk : nat -> Z) (sz : Z) (N : nat)
    (tr : list action) (s : system) : Prop :=
  exists rb, rb_init (Some junk) sz = Some rb /\ run (start rb N) tr s.

(** The values of the successful Puts and Takes of a run, in order. *)
Definition puts_of (tr : list action) : list Z :=
  omap (fun a => match a with act_put v => Some v | _ => None end) tr.

Definition takes_of (tr : list action) : list Z :=
  omap (fun a => match a with act_take _ v => Some v | _ => None end) tr.

(** * Predicates and ghost definitions of the properties *)

(** ** Well-formed buffers *)

(** The types of the data model: a positive capacity that is an [int], a
    block of that many cells, indices inside it, a fill level between empty
    and full. *)
Record rb_wf (rb : ring_buffer) : Prop := mk_rb_wf {
  wf_size : 0 < size rb <= INT_MAX;
  wf_data : Z.of_nat (length (data rb)) = size rb;
  wf_head : 0 <= head rb < size rb;
  wf_tail : 0 <= tail rb < size rb;
  wf_count : 0 <= count rb <= size rb
}.

Definition ring_inv (rb : ring_buffer) : Prop :=
  rb_wf rb /\ tail rb = (head rb + count rb) mod size rb.

(** The buffer after a successful [rb_enqueue] / [rb_dequeue]. *)
Definition enqueued (rb : ring_buffer) (value : Z) : ring_buffer :=
  mk_ring_buffer (<[Z.to_nat (tail rb) := value]> (data rb)) (size rb) (head rb)
    ((tail rb + 1) mod size rb) (count rb + 1) (shutdown rb)
    ((produced_total rb + 1) mod ULONG_MODULUS) (consumed_total rb).

Definition dequeued (rb : ring_buffer) : ring_buffer :=
  mk_ring_buffer (data rb) (size rb) ((head rb + 1) mod size rb) (tail rb)
    (count rb - 1) (shutdown rb)
    (produced_total rb) ((consumed_total rb + 1) mod ULONG_MODULUS).

(** The occupied cells, oldest first: [n] cells read circularly from [h]. *)
Fixpoint ring_slice (d : list Z) (sz h : Z) (n : nat) : list Z :=
  match n with
  | O => []
  | S n' => default 0 (d !! Z.to_nat h) :: ring_slice d sz ((h + 1) mod sz) n'
  end.

Definition contents (rb : ring_buffer) : list Z :=
  ring_slice (data rb) (size rb) (head rb) (Z.to_nat (count rb)).

(** What a transition can do to the buffer. *)
Definition silent (a : action) : Prop :=
  match a with
  | act_put _ | act_take _ _ => False
  | _ => True
  end.

Inductive buffer_change (rb : ring_buffer) : action -> ring_buffer -> Prop :=
  | change_none a : silent a -> buffer_change rb a rb
  | change_shutdown a : silent a -> buffer_change rb a (set_shutdown rb)
  | change_put v st rb' :
      shutdown rb = false -> count rb <> size rb ->
      rb_enqueue rb v = Ret (st, rb') ->
      buffer_change rb (act_put v) rb'
  | change_take i v st rb' :
      count rb <> 0 ->
      rb_dequeue rb = Ret (st, v, rb') ->
      buffer_change rb (act_take i v) rb'.

(** No thread is blocked in [pthread_cond_wait]. *)
Definition nobody_waiting (p : producer_pc) (cs : list consumer_pc) : Prop :=
  (forall v, p <> p_waiting v) /\ c_waiting ∉ cs.

(** The producer's local [value], while it has one. *)
Definition producer_value (p : producer_pc) : option Z :=
  match p with
  | p_check v | p_sleep v | p_waiting v | p_woken v => Some v
  | p_exited => None
  end.

(** A sequence of calls made with the mutex held throughout. *)
Definition lock_protected (evs : list effect) : Prop :=
  exists body, evs = mutex_lock :: body ++ [mutex_unlock].

(** The counters count the successful Puts and Takes of the run. *)
Definition counters_count (tr : list action) (rb : ring_buffer) : Prop :=
  produced_total rb = Z.of_nat (length (puts_of tr)) mod ULONG_MODULUS /\
  consumed_total rb = Z.of_nat (length (takes_of tr)) mod ULONG_MODULUS /\
  count rb = Z.of_nat (length (puts_of tr)) - Z.of_nat (length (takes_of tr)).

(** What a signal or broadcast can do to one thread. *)
Definition wakes_c (c c' : consumer_pc) : Prop :=
  c' = c \/ (c = c_waiting /\ c' = c_woken).

Definition wakes_p (p p' : producer_pc) : Prop :=
  p' = p \/ exists v, p = p_waiting v /\ p' = p_woken v.

(** Invariant of the threads along a run of [N] consumers with trace [tr]. *)
Record sys_inv (N : nat) (tr : list action) (s : system) : Prop := mk_sys_inv {
  inv_consumers : length (consumers s) = N;
  inv_waiting :
    shutdown (buffer s) = true -> nobody_waiting (producer s) (consumers s);
  inv_consumer_exited :
    c_exited ∈ consumers s -> shutdown (buffer s) = true /\ count (buffer s) = 0;
  inv_producer_exited : producer s = p_exited -> shutdown (buffer s) = true;
  inv_watcher_exited : watcher s = w_exited -> shutdown (buffer s) = true;
  inv_puts : puts_of tr = seqZ 1 (Z.of_nat (length (puts_of tr)));
  inv_value : forall v,
    producer_value (producer s) = Some v ->
    v = Z.of_nat (length (puts_of tr)) + 1
}.

(** The callers of TriggerShutdown that are functions of the buffer alone;
    the consumer's call is part of [consumer_main_locked]. *)
Inductive trigger := by_watcher | by_producer | by_main.

Definition trigger_shutdown (t : trigger) (rb : ring_buffer)
  : ring_buffer * list effect :=
  match t with
  | by_watcher => shutdown_watcher rb
  | by_producer => producer_main_stop rb
  | by_main => main_abort rb
  end.

(** ** Sample states *)

(** A buffer of capacity 2 holding the single item 7. *)
Definition sample_rb : ring_buffer :=
  mk_ring_buffer [7; 0] 2 0 1 1 false 1 0.

(** The same buffer after shutdown, and a drained buffer after shutdown. *)
Definition sample_rb_closing : ring_buffer := set_shutdown sample_rb.

Definition sample_rb_drained : ring_buffer :=
  mk_ring_buffer [7; 0] 2 1 1 0 true 1 1.

(** A block of zeroes, for [malloc]. *)
Definition zero_heap : nat -> Z := fun _ => 0.

(** One Put followed by one Take in a system of one consumer. *)
Definition sample_trace : list action :=
  [act_producer_go; act_put 1; act_take 0 1].

Definition sample_system : system :=
  mk_system (mk_ring_buffer [1; 0] 2 1 1 0 false 1 1) false (p_check 2)
    [c_loop] w_polling.

(** Every thread has exited on a drained buffer. *)
Definition sample_finished : system :=
  mk_system sample_rb_drained true p_exited [c_exited] w_exited.

(** [n] rounds of one Put followed by one Take, on a buffer of one cell and
    one consumer: the state reached and the trace. *)
Definition rounds_rb (n : Z) : ring_buffer :=
  mk_ring_buffer [n] 1 0 0 0 false (n mod ULONG_MODULUS) (n mod ULONG_MODULUS).

Definition rounds_system (n : Z) : system :=
  mk_system (rounds_rb n) false (p_check (n + 1)) [c_loop] w_polling.

Fixpoint rounds_trace (n : nat) : list action :=
  match n with
  | O => []
  | S k =>
      rounds_trace k ++
      [act_producer_go; act_put (Z.of_nat k + 1); act_take 0 (Z.of_nat k + 1)]
  end.

(** ** Tactics *)

(** Evaluation of a monadic section whose tests have been decided. *)
Ltac exec_step :=
  match goal with
  | H : context [decide ?P] |- _ => destruct (decide P); cbn in H
  | H : Undef _ = Ret _ |- _ => discriminate H
  | H : mret _ = Ret _ |- _ => injection H as H
  | H : Ret _ = Ret _ |- _ => injection H as H
  end.

(** Membership in a list that is written out. *)
Ltac in_list := repeat first [apply list_elem_of_here | apply list_elem_of_further].

(** * Properties *)

Lemma int_of_in_range z : INT_MIN <= z <= INT_MAX -> int_of z = Ret z.
Proof. intros H. unfold int_of. by rewrite decide_True. Qed.

Lemma int_rem_nonneg a b : 0 <= a -> 0 < b -> int_rem a b = Ret (a mod b).
Proof.
  intros Ha Hb. unfold int_rem.
  rewrite decide_False by lia.
  rewrite decide_False by (unfold INT_MIN; lia).
  by rewrite Z.rem_mod_nonneg by lia.
Qed.

Lemma store_in_bounds d i v :
  0 <= i < Z.of_nat (length d) -> store d i v = Ret (<[Z.to_nat i := v]> d).
Proof. intros H. unfold store. by rewrite decide_True. Qed.

Lemma load_in_bounds d i :
  0 <= i < Z.of_nat (length d) ->
  exists x, d !! Z.to_nat i = Some x /\ load d i = Ret x.
Proof.
  intros H. unfold load. rewrite decide_True by lia.
  destruct (lookup_lt_is_Some_2 d (Z.to_nat i)) as [x Hx]; [lia|].
  exists x. by rewrite Hx.
Qed.

Lemma rb_enqueue_wf rb value :
  rb_wf rb -> count rb < size rb ->
  rb_enqueue rb value = Ret (0, enqueued rb value).
Proof.
  intros [Hs Hd Hh Ht Hc] Hlt. unfold rb_enqueue.
  rewrite store_in_bounds by lia. cbn.
  rewrite (int_of_in_range (tail rb + 1)) by (unfold INT_MIN; lia). cbn.
  rewrite int_rem_nonneg by lia. cbn.
  rewrite int_of_in_range by (unfold INT_MIN; lia). reflexivity.
Qed.

Lemma rb_dequeue_wf rb :
  rb_wf rb ->
  exists out, data rb !! Z.to_nat (head rb) = Some out /\
    rb_dequeue rb = Ret (0, out, dequeued rb).
Proof.
  intros [Hs Hd Hh Ht Hc]. unfold rb_dequeue.
  destruct (load_in_bounds (data rb) (head rb)) as (out & Hout & ->); [lia|].
  exists out. split; [done|]. cbn.
  rewrite (int_of_in_range (head rb + 1)) by (unfold INT_MIN; lia). cbn.
  rewrite int_rem_nonneg by lia. cbn.
  rewrite int_of_in_range by (unfold INT_MIN; lia). reflexivity.
Qed.

Lemma rb_enqueue_inv rb value st rb' :
  rb_enqueue rb value = Ret (st, rb') ->
  st = 0 /\ 0 <= tail rb < Z.of_nat (length (data rb)) /\ size rb <> 0 /\
  rb' = mk_ring_buffer (<[Z.to_nat (tail rb) := value]> (data rb)) (size rb)
          (head rb) (Z.rem (tail rb + 1) (size rb)) (count rb + 1) (shutdown rb)
          (ulong_incr (produced_total rb)) (consumed_total rb).
Proof.
  unfold rb_enqueue, store, int_of, int_rem. intros H.
  repeat exec_step. subst. auto.
Qed.

Lemma rb_dequeue_inv rb st out rb' :
  rb_dequeue rb = Ret (st, out, rb') ->
  st = 0 /\ 0 <= head rb /\ data rb !! Z.to_nat (head rb) = Some out /\
  size rb <> 0 /\
  rb' = mk_ring_buffer (data rb) (size rb) (Z.rem (head rb + 1) (size rb))
          (tail rb) (count rb - 1) (shutdown rb)
          (produced_total rb) (ulong_incr (consumed_total rb)).
Proof.
  unfold rb_dequeue, load. intros H.
  destruct (decide (0 <= head rb)) as [Hh|]; cbn in H; [|discriminate H].
  destruct (data rb !! Z.to_nat (head rb)) as [x|] eqn:Hx; cbn in H;
    [|discriminate H].
  unfold int_of, int_rem in H. repeat exec_step. subst. auto.
Qed.

(** ** The outcomes of the critical sections *)

Lemma producer_main_locked_inv pre value rb st rb' evs :
  producer_main_locked pre value rb = Ret (st, rb', evs) ->
  (st = put_blocked /\ rb' = rb /\ shutdown rb = false /\ count rb = size rb /\
   evs = pre ++ [cond_wait not_full])
  \/ (st = put_rejected /\ rb' = rb /\ shutdown rb = true /\
      evs = pre ++ [mutex_unlock; printf line_producer_closes])
  \/ (exists next s0,
        st = put_success next /\ shutdown rb = false /\ count rb <> size rb /\
        rb_enqueue rb value = Ret (s0, rb') /\ int_of (value + 1) = Ret next /\
        evs = pre ++ [printf (line_produced value (count rb'));
                      cond_signal not_empty; mutex_unlock]).
Proof.
  unfold producer_main_locked. intros H.
  destruct (count rb =? size rb) eqn:Hc, (shutdown rb) eqn:Hs; cbn in H.
  - injection H as <- <- <-. right; left. auto.
  - injection H as <- <- <-. left. repeat split; auto; lia.
  - injection H as <- <- <-. right; left. auto.
  - destruct (rb_enqueue rb value) as [[s0 rb1]|] eqn:He; cbn in H;
      [|discriminate H].
    destruct (int_of (value + 1)) as [next|] eqn:Hn; cbn in H; [|discriminate H].
    injection H as <- <- <-. right; right. exists next, s0.
    repeat split; auto. lia.
Qed.

Lemma consumer_main_decide_inv pre id rb st rb' evs :
  consumer_main_decide pre id rb = Ret (st, rb', evs) ->
  (st = take_drained /\ rb' = rb /\ shutdown rb = true /\ count rb = 0 /\
   evs = pre ++ [mutex_unlock; printf (line_consumer_closes id)])
  \/ (exists v s0,
        st = take_success v /\ ~ (shutdown rb = true /\ count rb = 0) /\
        rb_dequeue rb = Ret (s0, v, rb') /\
        evs = pre ++ [cond_signal not_full; mutex_unlock;
                      printf (line_consumed id v (count rb'))]).
Proof.
  unfold consumer_main_decide. intros H.
  destruct (shutdown rb && (count rb =? 0)) eqn:Hb; cbn in H.
  - injection H as <- <- <-. apply andb_true_iff in Hb as [Hs Hc].
    left. repeat split; auto. lia.
  - destruct (rb_dequeue rb) as [[[s0 v] rb1]|] eqn:Hd; cbn in H;
      [|discriminate H].
    injection H as <- <- <-. right. exists v, s0. repeat split; auto.
    intros [Hs Hc]. rewrite Hs, Hc in Hb. discriminate Hb.
Qed.

Lemma consumer_main_locked_inv pre id stop rb st rb' evs :
  consumer_main_locked pre id stop rb = Ret (st, rb', evs) ->
  (st = take_blocked /\ rb' = rb /\ count rb = 0 /\ shutdown rb = false /\
   stop = false /\ evs = pre ++ [cond_wait not_empty])
  \/ (st = take_drained /\ rb' = set_shutdown rb /\ count rb = 0 /\
      shutdown rb = false /\ stop = true /\
      evs = (pre ++ [cond_broadcast not_empty; cond_broadcast not_full]) ++
            [mutex_unlock; printf (line_consumer_closes id)])
  \/ (st = take_drained /\ rb' = rb /\ count rb = 0 /\ shutdown rb = true /\
      evs = pre ++ [mutex_unlock; printf (line_consumer_closes id)])
  \/ (exists v s0,
        st = take_success v /\ count rb <> 0 /\
        rb_dequeue rb = Ret (s0, v, rb') /\
        evs = pre ++ [cond_signal not_full; mutex_unlock;
                      printf (line_consumed id v (count rb'))]).
Proof.
  unfold consumer_main_locked. intros H.
  destruct (count rb =? 0) eqn:Hc, (shutdown rb) eqn:Hs; cbn in H.
  - apply consumer_main_decide_inv in H
      as [(-> & -> & _ & _ & ->)|(v & s0 & _ & Hn & _)].
    + right; right; left. repeat split; auto. lia.
    + exfalso. apply Hn. split; [done|lia].
  - destruct stop.
    + apply consumer_main_decide_inv in H
        as [(-> & -> & _ & _ & ->)|(v & s0 & _ & Hn & _)].
      * right; left. repeat split; auto. lia.
      * exfalso. apply Hn. cbn. split; [done|lia].
    + injection H as <- <- <-. left. repeat split; auto. lia.
  - apply consumer_main_decide_inv in H
      as [(_ & _ & _ & Hz & _)|(v & s0 & -> & _ & Hd & ->)]; [lia|].
    right; right; right. exists v, s0. repeat split; auto. lia.
  - apply consumer_main_decide_inv in H
      as [(_ & _ & _ & Hz & _)|(v & s0 & -> & _ & Hd & ->)]; [lia|].
    right; right; right. exists v, s0. repeat split; auto. lia.
Qed.

Lemma producer_main_put_inv value rb st rb' evs :
  producer_main_put value rb = Ret (st, rb', evs) ->
  (st = put_blocked /\ rb' = rb /\ shutdown rb = false /\ count rb = size rb /\
   evs = [mutex_lock; cond_wait not_full])
  \/ (st = put_rejected /\ rb' = rb /\ shutdown rb = true /\
      evs = [mutex_lock; mutex_unlock; printf line_producer_closes])
  \/ (exists next s0,
        st = put_success next /\ shutdown rb = false /\ count rb <> size rb /\
        rb_enqueue rb value = Ret (s0, rb') /\ int_of (value + 1) = Ret next /\
        evs = [mutex_lock; printf (line_produced value (count rb'));
               cond_signal not_empty; mutex_unlock]).
Proof.
  unfold producer_main_put. destruct (shutdown rb) eqn:Hs.
  - intros [= <- <- <-]. right; left. auto.
  - intros H. apply producer_main_locked_inv in H. rewrite Hs in H.
    destruct H as [H|[(_ & _ & Hs' & _)|H]];
      [left; exact H|congruence|right; right; exact H].
Qed.

(** ** Transitions seen from the buffer *)

Lemma put_change pre value rb st rb' evs :
  producer_main_locked pre value rb = Ret (st, rb', evs) ->
  buffer_change rb (put_action value st) rb'.
Proof.
  intros H. apply producer_main_locked_inv in H
    as [(-> & -> & _)|[(-> & -> & _)|(next & s0 & -> & Hs & Hc & He & _)]]; cbn.
  - by apply change_none.
  - by apply change_none.
  - by eapply change_put.
Qed.

Lemma take_change pre id stop i rb st rb' evs :
  consumer_main_locked pre id stop rb = Ret (st, rb', evs) ->
  buffer_change rb (take_action i st) rb'.
Proof.
  intros H. apply consumer_main_locked_inv in H
    as [(-> & -> & _)|[(-> & -> & _)|[(-> & -> & _)|(v & s0 & -> & Hc & Hd & _)]]];
    cbn.
  - by apply change_none.
  - by apply change_shutdown.
  - by apply change_none.
  - by eapply change_take.
Qed.

Lemma step_buffer_change s a s' :
  step s a s' -> buffer_change (buffer s) a (buffer s').
Proof.
  destruct 1 as [s|s rb' evs p' cs' _ _ Hw _|s v rb' evs p' cs' _ _ Hp _|s v _ _
                |s v st rb' evs p' cs' _ Hp _|s v st rb' evs p' cs' _ Hp _
                |s i st rb' evs p' cs' _ Hc _|s i st rb' evs p' cs' _ Hc _
                |s v _|s i _|s rb' evs _ Hm]; cbn.
  - by apply change_none.
  - unfold shutdown_watcher in Hw. destruct (shutdown (buffer s)); cbn in Hw;
      injection Hw as <- <-; by constructor.
  - injection Hp as <- <-. by apply change_shutdown.
  - by apply change_none.
  - unfold producer_main_put in Hp. destruct (shutdown (buffer s)).
    + injection Hp as <- <- <-. by apply change_none.
    + by eapply put_change.
  - by eapply put_change.
  - by eapply take_change.
  - by eapply take_change.
  - by apply change_none.
  - by apply change_none.
  - injection Hm as <- <-. by apply change_none.
Qed.

(** ** Invariants of the buffer along a run *)

Section BufferInvariant.
Variable P : list action -> ring_buffer -> Prop.
Hypothesis P_change : forall tr rb a rb',
  P tr rb -> buffer_change rb a rb' -> P (tr ++ [a]) rb'.

Lemma run_buffer_invariant s tr s' :
  run s tr s' -> P [] (buffer s) -> P tr (buffer s').
Proof.
  induction 1 as [s|s tr s1 a s2 _ IH Hstep]; intros H0; [done|].
  eapply P_change; [by apply IH|]. by apply step_buffer_change.
Qed.
End BufferInvariant.

Lemma rb_init_ring_inv junk sz rb :
  1 <= sz <= INT_MAX -> rb_init (Some junk) sz = Some rb ->
  ring_inv rb /\ size rb = sz /\ count rb = 0 /\
  produced_total rb = 0 /\ consumed_total rb = 0 /\ shutdown rb = false.
Proof.
  intros Hsz [= <-]. repeat split; cbn; try lia.
  unfold malloc_int. rewrite length_fmap, length_seq. lia.
Qed.

Lemma set_shutdown_ring_inv rb : ring_inv rb -> ring_inv (set_shutdown rb).
Proof. intros [[? ? ? ? ?] ?]. repeat split; cbn; auto; lia. Qed.

Lemma enqueued_ring_inv rb value :
  ring_inv rb -> count rb < size rb -> ring_inv (enqueued rb value).
Proof.
  intros [[Hs Hd Hh Ht Hc] Hm] Hlt. repeat split; cbn; try lia.
  - rewrite length_insert. lia.
  - apply Z.mod_pos_bound; lia.
  - apply Z.mod_pos_bound; lia.
  - rewrite Hm, Zplus_mod_idemp_l. f_equal. lia.
Qed.

Lemma dequeued_ring_inv rb :
  ring_inv rb -> 0 < count rb -> ring_inv (dequeued rb).
Proof.
  intros [[Hs Hd Hh Ht Hc] Hm] Hlt. repeat split; cbn; try lia.
  - apply Z.mod_pos_bound; lia.
  - apply Z.mod_pos_bound; lia.
  - rewrite Hm, Zplus_mod_idemp_l. f_equal. lia.
Qed.

Lemma change_put_enqueued rb v st rb' :
  rb_wf rb -> count rb <> size rb -> rb_enqueue rb v = Ret (st, rb') ->
  count rb < size rb /\ rb' = enqueued rb v.
Proof.
  intros Hwf Hne He. assert (count rb < size rb) as Hlt
    by (destruct Hwf; lia).
  rewrite rb_enqueue_wf in He by done. by injection He as <- <-.
Qed.

Lemma change_take_dequeued rb v st rb' :
  rb_wf rb -> count rb <> 0 -> rb_dequeue rb = Ret (st, v, rb') ->
  0 < count rb /\ data rb !! Z.to_nat (head rb) = Some v /\ rb' = dequeued rb.
Proof.
  intros Hwf Hne Hd. assert (0 < count rb) as Hlt by (destruct Hwf; lia).
  destruct (rb_dequeue_wf rb Hwf) as (out & Hout & Heq).
  rewrite Heq in Hd. by injection Hd as <- <- <-.
Qed.

Lemma buffer_change_ring_inv rb a rb' :
  ring_inv rb -> buffer_change rb a rb' -> ring_inv rb' /\ size rb' = size rb.
Proof.
  intros Hinv [a' _|a' _|v st rb1 _ Hne He|i v st rb1 Hne Hd].
  - done.
  - split; [by apply set_shutdown_ring_inv|done].
  - destruct (change_put_enqueued rb v st rb1) as [Hlt ->]; [apply Hinv|done..|].
    split; [by apply enqueued_ring_inv|done].
  - destruct (change_take_dequeued rb v st rb1) as (Hlt & _ & ->);
      [apply Hinv|done..|].
    split; [by apply dequeued_ring_inv|done].
Qed.

Lemma reachable_ring_inv junk sz N tr s :
  1 <= sz <= INT_MAX -> reachable junk sz N tr s ->
  ring_inv (buffer s) /\ size (buffer s) = sz.
Proof.
  intros Hsz (rb & Hinit & Hrun).
  destruct (rb_init_ring_inv junk sz rb Hsz Hinit) as (Hinv & Hsize & _).
  apply (run_buffer_invariant (fun _ b => ring_inv b /\ size b = sz))
    with (s := start rb N) (tr := tr); [|done|done].
  intros tr' b a b' [Hb Hs] Hch.
  destruct (buffer_change_ring_inv b a b' Hb Hch) as [? ?]. split; [done|lia].
Qed.

(** C3. Ring invariant: in every state reached from [rb_init] with a
    validated capacity by the transitions of the producer (Put), the
    consumers (Take) and the shutdown triggers, [0 <= count <= size], [head]
    and [tail] lie in [[0, size)], and [tail = (head + count) mod size]; the
    capacity is the one given at initialisation. *)
Theorem ring_invariant junk sz N tr s :
  1 <= sz <= INT_MAX -> reachable junk sz N tr s ->
  0 <= count (buffer s) <= size (buffer s) /\
  0 <= head (buffer s) < size (buffer s) /\
  0 <= tail (buffer s) < size (buffer s) /\
  tail (buffer s) = (head (buffer s) + count (buffer s)) mod size (buffer s) /\
  size (buffer s) = sz.
Proof.
  intros Hsz Hr.
  destruct (reachable_ring_inv junk sz N tr s Hsz Hr) as [[[? ? ? ? ?] ?] ?].
  auto.
Qed.

(** ** Counters *)

Lemma puts_of_snoc tr a :
  puts_of (tr ++ [a]) =
  puts_of tr ++ match a with act_put v => [v] | _ => [] end.
Proof. unfold puts_of. rewrite omap_app. by destruct a. Qed.

Lemma takes_of_snoc tr a :
  takes_of (tr ++ [a]) =
  takes_of tr ++ match a with act_take _ v => [v] | _ => [] end.
Proof. unfold takes_of. rewrite omap_app. by destruct a. Qed.

Lemma puts_of_silent tr a : silent a -> puts_of (tr ++ [a]) = puts_of tr.
Proof. intros H. rewrite puts_of_snoc. destruct a; try done; apply app_nil_r. Qed.

Lemma takes_of_silent tr a : silent a -> takes_of (tr ++ [a]) = takes_of tr.
Proof. intros H. rewrite takes_of_snoc. destruct a; try done; apply app_nil_r. Qed.

Lemma buffer_change_counters tr rb a rb' :
  ring_inv rb -> counters_count tr rb -> buffer_change rb a rb' ->
  counters_count (tr ++ [a]) rb'.
Proof.
  intros Hinv (Hp & Hc & Hn) [a' Ha|a' Ha|v st rb1 _ Hne He|i v st rb1 Hne Hd];
    unfold counters_count.
  - by rewrite puts_of_silent, takes_of_silent.
  - by rewrite puts_of_silent, takes_of_silent.
  - destruct (change_put_enqueued rb v st rb1) as [Hlt ->]; [apply Hinv|done..|].
    rewrite puts_of_snoc, takes_of_snoc, app_nil_r, length_app. cbn.
    rewrite Hp, Hc, Hn, Zplus_mod_idemp_l. repeat split; [f_equal|]; lia.
  - destruct (change_take_dequeued rb v st rb1) as (Hlt & _ & ->);
      [apply Hinv|done..|].
    rewrite puts_of_snoc, takes_of_snoc, app_nil_r, length_app. cbn.
    rewrite Hp, Hc, Hn, Zplus_mod_idemp_l. repeat split; [f_equal|]; lia.
Qed.

Lemma reachable_counters junk sz N tr s :
  1 <= sz <= INT_MAX -> reachable junk sz N tr s ->
  ring_inv (buffer s) /\ counters_count tr (buffer s).
Proof.
  intros Hsz (rb & Hinit & Hrun).
  destruct (rb_init_ring_inv junk sz rb Hsz Hinit)
    as (Hinv & _ & Hc & Hp & Hq & _).
  apply (run_buffer_invariant (fun t b => ring_inv b /\ counters_count t b))
    with (s := start rb N) (tr := tr); [|done|].
  - intros tr' b a b' [Hb Hcnt] Hch. split.
    + by destruct (buffer_change_ring_inv b a b' Hb Hch).
    + by apply buffer_change_counters with (rb := b).
  - split; [done|]. unfold counters_count. cbn. by rewrite Hc, Hp, Hq.
Qed.

(** C4. Counter invariant: in every reachable state (each is observed
    between two critical sections, hence under the lock discipline),
    [produced_total] is the number of successful Puts of the run and
    [consumed_total] the number of successful Takes, each as an
    [unsigned long]; [count] is their difference; so
    [produced_total - consumed_total == count] in [unsigned long]
    arithmetic, and as integers for as long as [produced_total] has not
    wrapped. *)
Theorem counter_invariant junk sz N tr s :
  1 <= sz <= INT_MAX -> reachable junk sz N tr s ->
  produced_total (buffer s) = Z.of_nat (length (puts_of tr)) mod ULONG_MODULUS /\
  consumed_total (buffer s) = Z.of_nat (length (takes_of tr)) mod ULONG_MODULUS /\
  count (buffer s) = Z.of_nat (length (puts_of tr)) - Z.of_nat (length (takes_of tr)) /\
  (produced_total (buffer s) - consumed_total (buffer s)) mod ULONG_MODULUS
    = count (buffer s) /\
  (Z.of_nat (length (puts_of tr)) < ULONG_MODULUS ->
   produced_total (buffer s) - consumed_total (buffer s) = count (buffer s)).
Proof.
  intros Hsz Hr.
  destruct (reachable_counters junk sz N tr s Hsz Hr)
    as ([[Hs _ _ _ Hc] _] & Hp & Hq & Hn).
  repeat split; try done.
  - rewrite Hp, Hq, <- Zminus_mod, <- Hn.
    apply Z.mod_small. unfold INT_MAX, ULONG_MODULUS in *. lia.
  - intros Hlt. rewrite Hp, Hq, Hn.
    rewrite !Z.mod_small; unfold ULONG_MODULUS in *; lia.
Qed.

(** ** Contents of the ring *)

Lemma mod_add_ne h k sz :
  0 <= h < sz -> 0 < k < sz -> (h + k) mod sz <> h.
Proof.
  intros Hh Hk. destruct (decide (h + k < sz)) as [Hlt|Hge].
  - rewrite Z.mod_small by lia. lia.
  - replace (h + k) with ((h + k - sz) + 1 * sz) by lia.
    rewrite Z.mod_add by lia. rewrite Z.mod_small by lia. lia.
Qed.

Lemma ring_slice_enqueue d sz v n h :
  Z.of_nat (length d) = sz -> 0 <= h < sz -> Z.of_nat n < sz ->
  ring_slice (<[Z.to_nat ((h + Z.of_nat n) mod sz) := v]> d) sz h (S n)
  = ring_slice d sz h n ++ [v].
Proof.
  intros Hd. revert h. induction n as [|n IH]; intros h Hh Hn.
  - cbn. rewrite Z.add_0_r, Z.mod_small by lia.
    rewrite list_lookup_insert_eq by lia. done.
  - change (ring_slice ?l sz h (S (S n)))
      with (default 0 (l !! Z.to_nat h) :: ring_slice l sz ((h + 1) mod sz) (S n)).
    change (ring_slice d sz h (S n))
      with (default 0 (d !! Z.to_nat h) :: ring_slice d sz ((h + 1) mod sz) n).
    assert ((h + Z.of_nat (S n)) mod sz = ((h + 1) mod sz + Z.of_nat n) mod sz)
      as Hidx by (rewrite Zplus_mod_idemp_l; f_equal; lia).
    assert (0 <= (h + 1) mod sz < sz) as Hh' by (apply Z.mod_pos_bound; lia).
    assert (0 <= (h + Z.of_nat (S n)) mod sz < sz) as Ht
      by (apply Z.mod_pos_bound; lia).
    rewrite list_lookup_insert_ne.
    + rewrite Hidx, IH by lia. done.
    + pose proof (mod_add_ne h (Z.of_nat (S n)) sz Hh). lia.
Qed.

Lemma contents_set_shutdown rb : contents (set_shutdown rb) = contents rb.
Proof. reflexivity. Qed.

Lemma contents_enqueued rb v :
  ring_inv rb -> count rb < size rb ->
  contents (enqueued rb v) = contents rb ++ [v].
Proof.
  intros [[Hs Hd Hh Ht Hc] Hm] Hlt. unfold contents; cbn.
  replace (Z.to_nat (count rb + 1)) with (S (Z.to_nat (count rb))) by lia.
  rewrite Hm. rewrite <- (Z2Nat.id (count rb)) at 1 by lia.
  apply ring_slice_enqueue; lia.
Qed.

Lemma contents_dequeued rb v :
  0 < count rb -> data rb !! Z.to_nat (head rb) = Some v ->
  contents rb = v :: contents (dequeued rb).
Proof.
  intros Hc Hv. unfold contents; cbn.
  replace (Z.to_nat (count rb)) with (S (Z.to_nat (count rb - 1))) by lia.
  cbn. by rewrite Hv.
Qed.

Lemma buffer_change_contents tr rb a rb' :
  ring_inv rb -> puts_of tr = takes_of tr ++ contents rb ->
  buffer_change rb a rb' ->
  puts_of (tr ++ [a]) = takes_of (tr ++ [a]) ++ contents rb'.
Proof.
  intros Hinv Hq [a' Ha|a' Ha|v st rb1 _ Hne He|i v st rb1 Hne Hd].
  - by rewrite puts_of_silent, takes_of_silent.
  - by rewrite puts_of_silent, takes_of_silent.
  - destruct (change_put_enqueued rb v st rb1) as [Hlt ->]; [apply Hinv|done..|].
    rewrite puts_of_snoc, takes_of_snoc, app_nil_r, contents_enqueued by done.
    by rewrite Hq, app_assoc.
  - destruct (change_take_dequeued rb v st rb1) as (Hlt & Hv & ->);
      [apply Hinv|done..|].
    rewrite puts_of_snoc, takes_of_snoc, app_nil_r, Hq.
    rewrite (contents_dequeued rb v) by done. by rewrite <- app_assoc.
Qed.

Lemma reachable_contents junk sz N tr s :
  1 <= sz <= INT_MAX -> reachable junk sz N tr s ->
  puts_of tr = takes_of tr ++ contents (buffer s).
Proof.
  intros Hsz (rb & Hinit & Hrun).
  destruct (rb_init_ring_inv junk sz rb Hsz Hinit) as (Hinv & _ & Hc & _).
  apply (run_buffer_invariant
           (fun t b => ring_inv b /\ puts_of t = takes_of t ++ contents b))
    with (s := start rb N) (tr := tr); [|done|].
  - intros tr' b a b' [Hb Hq] Hch. split.
    + by destruct (buffer_change_ring_inv b a b' Hb Hch).
    + by apply buffer_change_contents with (rb := b).
  - split; [done|]. unfold contents. cbn. by rewrite Hc.
Qed.

(** ** Condition variables *)

Lemma wakes_c_refl cs : Forall2 wakes_c cs cs.
Proof. apply Forall_Forall2_diag, Forall_forall. intros c _. by left. Qed.

Lemma wake_one_wakes cs cs' : wake_one cs cs' -> Forall2 wakes_c cs cs'.
Proof.
  intros [cs0 _|cs0 i Hi]; [apply wakes_c_refl|].
  rewrite <- (list_insert_id cs0 i c_waiting) at 1 by done.
  apply Forall2_insert; [apply wakes_c_refl|by right].
Qed.

Lemma wake_all_wakes cs : Forall2 wakes_c cs (wake_consumer <$> cs).
Proof.
  apply Forall2_fmap_r, Forall_Forall2_diag, Forall_forall.
  intros [] _; (by left) || (by right).
Qed.

Lemma wake_producer_wakes p : wakes_p p (wake_producer p).
Proof. destruct p; (by left) || (right; by eexists). Qed.

Lemma wakes_p_trans p1 p2 p3 : wakes_p p1 p2 -> wakes_p p2 p3 -> wakes_p p1 p3.
Proof.
  intros [->|(v & -> & ->)] [->|(w & Hw & ->)];
    first [by left | discriminate | right; by eexists].
Qed.

Lemma wakes_c_trans cs1 cs2 cs3 :
  Forall2 wakes_c cs1 cs2 -> Forall2 wakes_c cs2 cs3 -> Forall2 wakes_c cs1 cs3.
Proof.
  intros H. revert cs3. induction H as [|c1 c2 l1 l2 Hc _ IH]; intros cs3 H3.
  - by inversion H3.
  - inversion H3 as [|? c3 ? l3 Hc' Hl]; subst. constructor; [|by apply IH].
    destruct Hc as [->|[-> ->]]; [done|].
    destruct Hc' as [->|[? _]]; [by right|discriminate].
Qed.

Lemma deliver1_wakes e p cs p' cs' :
  deliver1 e (p, cs) (p', cs') -> wakes_p p p' /\ Forall2 wakes_c cs cs'.
Proof.
  inversion 1; subst; split;
    first [by left | apply wake_producer_wakes | by apply wake_one_wakes
          | apply wake_all_wakes | apply wakes_c_refl].
Qed.

Lemma deliver_wakes evs t t' :
  deliver evs t t' -> wakes_p t.1 t'.1 /\ Forall2 wakes_c t.2 t'.2.
Proof.
  induction 1 as [t|e es [p1 cs1] [p2 cs2] [p3 cs3] H1 _ [IHp IHc]]; cbn in *.
  - split; [by left|apply wakes_c_refl].
  - apply deliver1_wakes in H1 as [Hp Hc].
    split; [by eapply wakes_p_trans|by eapply wakes_c_trans].
Qed.

Lemma wakes_c_exited cs cs' :
  Forall2 wakes_c cs cs' -> c_exited ∈ cs' -> c_exited ∈ cs.
Proof.
  intros H (i & Hi)%list_elem_of_lookup.
  destruct (Forall2_lookup_r _ _ _ _ _ H Hi) as (c & Hc & [Heq|[_ ?]]);
    [|discriminate].
  apply list_elem_of_lookup. exists i. by rewrite Hc, Heq.
Qed.

Lemma wakes_c_waiting cs cs' :
  Forall2 wakes_c cs cs' -> c_waiting ∈ cs' -> c_waiting ∈ cs.
Proof.
  intros H (i & Hi)%list_elem_of_lookup.
  destruct (Forall2_lookup_r _ _ _ _ _ H Hi) as (c & Hc & [Heq|[_ ?]]);
    [|discriminate].
  apply list_elem_of_lookup. exists i. by rewrite Hc, Heq.
Qed.

Lemma wakes_c_nobody cs cs' :
  Forall2 wakes_c cs cs' -> c_waiting ∉ cs -> cs' = cs.
Proof.
  induction 1 as [|c c' l l' Hc _ IH]; intros Hn; [done|].
  rewrite not_elem_of_cons in Hn. destruct Hn as [Hne Hl].
  rewrite (IH Hl). destruct Hc as [->|[-> _]]; [done|congruence].
Qed.

Lemma wakes_p_nobody p p' :
  wakes_p p p' -> (forall v, p <> p_waiting v) -> p' = p.
Proof. intros [->|(v & -> & _)] Hn; [done|]. by destruct (Hn v). Qed.

Lemma wakes_p_value p p' : wakes_p p p' -> producer_value p' = producer_value p.
Proof. by intros [->|(v & -> & ->)]. Qed.

Lemma wakes_p_waiting p p' v : wakes_p p p' -> p' = p_waiting v -> p = p_waiting v.
Proof. intros [->|(w & -> & ->)]; [done|discriminate]. Qed.

(** The calls of a critical section can always be delivered. *)
Lemma deliver_total evs t : exists t', deliver evs t t'.
Proof.
  revert t. induction evs as [|e evs IH]; intros [p cs].
  - eexists. constructor.
  - assert (exists t1, deliver1 e (p, cs) t1) as [t1 H1].
    { destruct e as [| |c|[]|[]|l]; try (eexists; by constructor).
      destruct (decide (c_waiting ∈ cs)) as [Hin|Hn].
      - apply list_elem_of_lookup in Hin as [i Hi].
        eexists. constructor. by apply wake_one_at with (i := i).
      - eexists. constructor. by apply wake_one_none. }
    destruct (IH t1) as [t' H']. exists t'. by econstructor.
Qed.

(** A broadcast leaves no thread blocked on its condition variable. *)
Lemma deliver_broadcast evs t t' :
  deliver evs t t' ->
  (cond_broadcast not_empty ∈ evs -> c_waiting ∉ t'.2) /\
  (cond_broadcast not_full ∈ evs -> forall v, t'.1 <> p_waiting v).
Proof.
  induction 1 as [t|e es t1 [p2 cs2] [p3 cs3] H1 H2 [IHc IHp]].
  - split; intros Hin; by apply elem_of_nil in Hin.
  - apply deliver_wakes in H2 as [Hp2 Hc2]; cbn in *.
    split; intros [<-|Hin]%elem_of_cons; auto.
    + inversion H1; subst. intros Hw.
      apply (wakes_c_waiting _ _ Hc2) in Hw.
      apply list_elem_of_fmap in Hw as ([] & ? & _); discriminate.
    + inversion H1; subst. intros v Hv.
      apply (wakes_p_waiting _ _ v Hp2) in Hv.
      match goal with H : wake_producer ?p = _ |- _ => destruct p; discriminate end.
Qed.

Lemma deliver_facts evs p cs p' cs' :
  deliver evs (p, cs) (p', cs') ->
  length cs' = length cs /\
  (c_exited ∈ cs' -> c_exited ∈ cs) /\
  (c_waiting ∈ cs' -> c_waiting ∈ cs) /\
  producer_value p' = producer_value p /\
  (forall v, p' = p_waiting v -> p = p_waiting v) /\
  (cond_broadcast not_empty ∈ evs -> c_waiting ∉ cs') /\
  (cond_broadcast not_full ∈ evs -> forall v, p' <> p_waiting v) /\
  (p' = p_exited -> p = p_exited).
Proof.
  intros H. destruct (deliver_wakes _ _ _ H) as [Hp Hc].
  destruct (deliver_broadcast _ _ _ H) as [Hbe Hbf]. cbn in *.
  repeat split; auto.
  - symmetry. by eapply Forall2_length.
  - by apply wakes_c_exited.
  - by apply wakes_c_waiting.
  - by apply wakes_p_value.
  - intros v. by apply wakes_p_waiting.
  - destruct Hp as [->|(v & -> & ->)]; [done|discriminate].
Qed.

Lemma int_of_inv z n : int_of z = Ret n -> n = z /\ INT_MIN <= z <= INT_MAX.
Proof. unfold int_of. case_decide; [|discriminate]. by intros [= <-]. Qed.

Lemma deliver_nobody evs p cs p' cs' :
  deliver evs (p, cs) (p', cs') -> nobody_waiting p cs -> p' = p /\ cs' = cs.
Proof.
  intros H [Hp Hc]. destruct (deliver_wakes _ _ _ H) as [Hwp Hwc]. cbn in *.
  split; [by apply wakes_p_nobody|by apply wakes_c_nobody].
Qed.

Lemma elem_of_insert_inv {A} (l : list A) i x y :
  x ∈ <[i := y]> l -> x = y \/ x ∈ l.
Proof.
  intros (j & Hj)%list_elem_of_lookup. rewrite list_lookup_insert in Hj.
  case_decide; [left; congruence|right].
  apply list_elem_of_lookup. by exists j.
Qed.

Lemma seqZ_snoc_length (l : list Z) v :
  l = seqZ 1 (Z.of_nat (length l)) -> v = Z.of_nat (length l) + 1 ->
  l ++ [v] = seqZ 1 (Z.of_nat (length (l ++ [v]))).
Proof.
  intros Hl ->. rewrite length_app. cbn.
  replace (length l + 1)%nat with (S (length l)) by lia.
  rewrite seqZ_S, <- Hl. f_equal. f_equal. lia.
Qed.

(** ** Invariant of the threads *)

Lemma nobody_waiting_wakes p cs p' cs' evs :
  deliver evs (p, cs) (p', cs') -> nobody_waiting p cs -> nobody_waiting p' cs'.
Proof. intros H Hn. by destruct (deliver_nobody _ _ _ _ _ H Hn) as [-> ->]. Qed.

Lemma start_sys_inv rb N : shutdown rb = false -> sys_inv N [] (start rb N).
Proof.
  intros Hs. constructor; cbn; try congruence.
  - apply length_replicate.
  - intros H%elem_of_replicate_inv. discriminate.
  - done.
  - intros v [= <-]. done.
Qed.

Lemma shutdown_watcher_inv rb rb' evs :
  shutdown_watcher rb = (rb', evs) ->
  (shutdown rb = false /\ rb' = set_shutdown rb /\
   evs = [mutex_lock; printf line_sigint; cond_broadcast not_empty;
          cond_broadcast not_full; mutex_unlock])
  \/ (shutdown rb = true /\ rb' = rb /\ evs = [mutex_lock; mutex_unlock]).
Proof.
  unfold shutdown_watcher. destruct (shutdown rb); cbn; intros [= <- <-]; auto.
Qed.

Lemma put_sys_inv N tr s v st rb' evs p' cs' :
  sys_inv N tr s -> producer_value (producer s) = Some v ->
  (st = put_blocked /\ rb' = buffer s /\ shutdown (buffer s) = false)
  \/ (st = put_rejected /\ rb' = buffer s /\ shutdown (buffer s) = true)
  \/ (exists next s0,
        st = put_success next /\ shutdown (buffer s) = false /\
        rb_enqueue (buffer s) v = Ret (s0, rb') /\ int_of (v + 1) = Ret next) ->
  deliver evs (producer s, consumers s) (p', cs') ->
  sys_inv N (tr ++ [put_action v st])
    (mk_system rb' (g_stop_flag s) (producer_pc_after v st) cs' (watcher s)).
Proof.
  intros [Hlen Hwait Hcex Hpex Hwex Hputs Hval] Hv Hout Hdel.
  destruct (deliver_facts _ _ _ _ _ Hdel) as (Dl & De & Dw & Dv & Dp & Dbe & Dbf & Dx).
  destruct Hout as [(-> & -> & Hs)|[(-> & -> & Hs)|(next & s0 & -> & Hs & He & Hn)]].
  - constructor; cbn; rewrite ?puts_of_silent by done; auto; try congruence.
    intros w [= <-]. by apply Hval.
  - constructor; cbn; rewrite ?puts_of_silent by done; auto; try congruence.
    intros _. destruct (Hwait Hs) as [_ Hn]. split; [done|]. auto.
  - apply rb_enqueue_inv in He as (_ & _ & _ & ->).
    apply int_of_inv in Hn as [-> _].
    constructor; cbn; auto; try congruence.
    + intros H. destruct (Hcex (De H)). congruence.
    + rewrite puts_of_snoc. apply seqZ_snoc_length; auto.
    + intros w [= <-]. rewrite puts_of_snoc, length_app. cbn.
      rewrite (Hval v Hv). lia.
Qed.

Lemma take_sys_inv N tr s i c pre stop st rb' evs p' cs' :
  sys_inv N tr s -> consumers s !! i = Some c -> c <> c_waiting ->
  consumer_main_locked pre (consumer_id i) stop (buffer s) = Ret (st, rb', evs) ->
  deliver evs (producer s, consumers s) (p', cs') ->
  sys_inv N (tr ++ [take_action i st])
    (mk_system rb' (g_stop_flag s) p' (<[i := consumer_pc_after st]> cs')
       (watcher s)).
Proof.
  intros [Hlen Hwait Hcex Hpex Hwex Hputs Hval] Hi Hc Hsec Hdel.
  destruct (deliver_facts _ _ _ _ _ Hdel) as (Dl & De & Dw & Dv & Dp & Dbe & Dbf & Dx).
  apply consumer_main_locked_inv in Hsec
    as [(-> & -> & Hz & Hs & _ & ->)|[(-> & -> & Hz & Hs & _ & ->)
       |[(-> & -> & Hz & Hs & ->)|(v & s0 & -> & Hz & Hd & ->)]]].
  - (* blocked *)
    constructor; cbn; rewrite ?puts_of_silent by done; auto; try congruence.
    + by rewrite length_insert, Dl.
    + intros [?|H]%elem_of_insert_inv; [discriminate|].
      destruct (Hcex (De H)). congruence.
    + intros w Hw. apply Hval. by rewrite <- Dv.
  - (* drained, after triggering the shutdown *)
    constructor; cbn; rewrite ?puts_of_silent by done; auto; try congruence.
    + by rewrite length_insert, Dl.
    + intros _. split.
      * apply Dbf. rewrite !elem_of_app. left; right. in_list.
      * intros [?|H]%elem_of_insert_inv; [discriminate|].
        revert H. apply Dbe. rewrite !elem_of_app. left; right. in_list.
    + intros w Hw. apply Hval. by rewrite <- Dv.
  - (* drained *)
    destruct (deliver_nobody _ _ _ _ _ Hdel (Hwait Hs)) as [-> ->].
    constructor; cbn; rewrite ?puts_of_silent by done; auto.
    + by rewrite length_insert.
    + intros _. destruct (Hwait Hs) as [Hp Hn]. split; [done|].
      intros [?|H]%elem_of_insert_inv; [discriminate|done].
  - (* success *)
    apply rb_dequeue_inv in Hd as (_ & _ & _ & _ & ->).
    constructor; cbn; auto.
    + by rewrite length_insert, Dl.
    + intros Hs. destruct (deliver_nobody _ _ _ _ _ Hdel (Hwait Hs)) as [-> ->].
      destruct (Hwait Hs) as [Hp Hn]. split; [done|].
      intros [?|H]%elem_of_insert_inv; [discriminate|done].
    + intros [?|H]%elem_of_insert_inv; [discriminate|].
      destruct (Hcex (De H)). congruence.
    + rewrite puts_of_snoc. cbn. by rewrite app_nil_r.
    + intros w Hw. rewrite puts_of_snoc. cbn. rewrite app_nil_r.
      apply Hval. by rewrite <- Dv.
Qed.

Lemma step_sys_inv N tr s a s' :
  sys_inv N tr s -> step s a s' -> sys_inv N (tr ++ [a]) s'.
Proof.
  intros [Hlen Hwait Hcex Hpex Hwex Hputs Hval] Hstep.
  destruct Hstep as [s|s rb' evs p' cs' Hw Hg Hsec Hdel
                    |s v rb' evs p' cs' Hp Hg Hsec Hdel|s v Hp Hg
                    |s v st rb' evs p' cs' Hp Hsec Hdel
                    |s v st rb' evs p' cs' Hp Hsec Hdel
                    |s i st rb' evs p' cs' Hc Hsec Hdel
                    |s i st rb' evs p' cs' Hc Hsec Hdel
                    |s v Hp|s i Hc|s rb' evs Hall Hsec].
  - (* SIGINT *)
    constructor; cbn; rewrite ?puts_of_silent by done; auto.
  - (* watcher *)
    destruct (deliver_facts _ _ _ _ _ Hdel) as (Dl & De & Dw & Dv & Dp & Dbe & Dbf & Dx).
    apply shutdown_watcher_inv in Hsec as [(Hs & -> & ->)|(Hs & -> & ->)].
    + constructor; cbn; rewrite ?puts_of_silent by done; auto; try congruence.
      * intros _. split; [apply Dbf|apply Dbe]; in_list.
      * intros H. destruct (Hcex (De H)). congruence.
      * intros w Hw'. apply Hval. by rewrite <- Dv.
    + destruct (deliver_nobody _ _ _ _ _ Hdel (Hwait Hs)) as [-> ->].
      constructor; cbn; rewrite ?puts_of_silent by done; auto.
  - (* producer, flag set *)
    destruct (deliver_facts _ _ _ _ _ Hdel) as (Dl & De & Dw & Dv & Dp & Dbe & Dbf & Dx).
    injection Hsec as <- <-.
    constructor; cbn; rewrite ?puts_of_silent by done; auto; try congruence.
    + intros _. split; [done|apply Dbe; in_list].
    + intros H. destruct (Hcex (De H)) as [_ ?]. done.
  - (* producer, flag clear *)
    constructor; cbn; rewrite ?puts_of_silent by done; auto.
    + intros H. destruct (Hwait H) as [_ ?]. split; [done|done].
    + discriminate.
    + intros w [= <-]. apply Hval. by rewrite Hp.
  - (* Put *)
    apply put_sys_inv with (evs := evs) (p' := p'); try done.
    + by rewrite Hp.
    + apply producer_main_put_inv in Hsec
        as [(? & ? & ? & _)|[(? & ? & ? & _)|(next & s0 & ? & ? & _ & ? & ? & _)]];
        [by left|by right; left|right; right; by exists next, s0].
  - (* Put, woken *)
    apply put_sys_inv with (evs := evs) (p' := p'); try done.
    + by rewrite Hp.
    + apply producer_main_locked_inv in Hsec
        as [(? & ? & ? & _)|[(? & ? & ? & _)|(next & s0 & ? & ? & _ & ? & ? & _)]];
        [by left|by right; left|right; right; by exists next, s0].
  - (* Take *)
    by eapply take_sys_inv.
  - (* Take, woken *)
    by eapply take_sys_inv.
  - (* spurious wake-up of the producer *)
    constructor; cbn; rewrite ?puts_of_silent by done; auto.
    + intros H. destruct (Hwait H) as [Hn _]. by destruct (Hn v).
    + discriminate.
    + intros w [= <-]. apply Hval. by rewrite Hp.
  - (* spurious wake-up of a consumer *)
    constructor; cbn; rewrite ?puts_of_silent by done; auto.
    + by rewrite length_insert.
    + intros H. destruct (Hwait H) as [_ Hn]. destruct Hn.
      apply list_elem_of_lookup. by exists i.
    + intros [?|H]%elem_of_insert_inv; [discriminate|auto].
  - (* final report *)
    injection Hsec as <- <-.
    constructor; cbn; rewrite ?puts_of_silent by done; auto.
Qed.

Lemma run_sys_inv N rb tr s :
  shutdown rb = false -> run (start rb N) tr s -> sys_inv N tr s.
Proof.
  intros Hs Hrun. remember (start rb N) as s0 eqn:Hs0.
  induction Hrun as [s|s tr s1 a s2 _ IH Hstep]; subst.
  - by apply start_sys_inv.
  - apply step_sys_inv with (s := s1); auto.
Qed.

Lemma reachable_sys_inv junk sz N tr s :
  reachable junk sz N tr s -> sys_inv N tr s.
Proof.
  intros (rb & [= <-] & Hrun). by apply run_sys_inv in Hrun.
Qed.

Lemma contents_empty rb : count rb = 0 -> contents rb = [].
Proof. intros H. unfold contents. by rewrite H. Qed.

(** C7. No lost or duplicated items: along every run, the values accepted
    by successful Puts are the values returned by successful Takes followed
    by the values still in the buffer, oldest first; hence once the buffer is
    empty, and in particular once a consumer has left on shutdown-drained or
    every thread of a run with a consumer has exited, the values taken are,
    as a multiset, the values put. *)
Theorem no_lost_or_duplicated_items junk sz N tr s :
  1 <= sz <= INT_MAX -> reachable junk sz N tr s ->
  puts_of tr = takes_of tr ++ contents (buffer s) /\
  (count (buffer s) = 0 -> takes_of tr ≡ₚ puts_of tr) /\
  (c_exited ∈ consumers s -> takes_of tr ≡ₚ puts_of tr) /\
  (all_exited s -> (0 < N)%nat ->
   shutdown (buffer s) = true /\ takes_of tr ≡ₚ puts_of tr).
Proof.
  intros Hsz Hr.
  pose proof (reachable_contents junk sz N tr s Hsz Hr) as Hq.
  destruct (reachable_sys_inv junk sz N tr s Hr) as [Hlen _ Hcex _ Hwex _ _].
  assert (count (buffer s) = 0 -> takes_of tr ≡ₚ puts_of tr) as Hempty.
  { intros Hz. by rewrite Hq, contents_empty, app_nil_r. }
  repeat split; auto.
  - intros H. apply Hempty. by destruct (Hcex H).
  - destruct H as (Hw & _ & _). auto.
  - destruct H as (_ & _ & Hall). apply Hempty.
    destruct (consumers s) as [|c cs]; [cbn in Hlen; lia|].
    assert (c_exited ∈ c :: cs) as Hin.
    { rewrite <- (Hall c) at 1 by in_list. in_list. }
    by destruct (Hcex Hin).
Qed.

(** ** The Take protocol *)

Lemma deliver_cons_inv e es t t' :
  deliver (e :: es) t t' -> exists t1, deliver1 e t t1 /\ deliver es t1 t'.
Proof. inversion 1; subst. eauto. Qed.

Lemma deliver_nil_inv t t' : deliver [] t t' -> t' = t.
Proof. by inversion 1. Qed.

Lemma deliver_app_inv es1 es2 t t' :
  deliver (es1 ++ es2) t t' -> exists t1, deliver es1 t t1 /\ deliver es2 t1 t'.
Proof.
  revert t. induction es1 as [|e es1 IH]; intros t H; cbn in H.
  - exists t. split; [constructor|done].
  - apply deliver_cons_inv in H as (t1 & H1 & H2).
    destruct (IH _ H2) as (t2 & H3 & H4). exists t2. split; [|done].
    by econstructor.
Qed.

Lemma consumer_main_decide_drained pre id rb :
  shutdown rb = true -> count rb = 0 ->
  consumer_main_decide pre id rb =
  Ret (take_drained, rb, pre ++ [mutex_unlock; printf (line_consumer_closes id)]).
Proof. intros Hs Hc. unfold consumer_main_decide. by rewrite Hs, Hc. Qed.

Lemma consumer_main_decide_success pre id rb :
  rb_wf rb -> ~ (shutdown rb = true /\ count rb = 0) ->
  exists v, data rb !! Z.to_nat (head rb) = Some v /\
    consumer_main_decide pre id rb =
    Ret (take_success v, dequeued rb,
         pre ++ [cond_signal not_full; mutex_unlock;
                 printf (line_consumed id v (count rb - 1))]).
Proof.
  intros Hwf Hn. destruct (rb_dequeue_wf rb Hwf) as (v & Hv & Hd).
  exists v. split; [done|]. unfold consumer_main_decide.
  destruct (shutdown rb && (count rb =? 0)) eqn:Hb.
  - apply andb_true_iff in Hb as [Hs Hc]. destruct Hn. split; [done|lia].
  - by rewrite Hd.
Qed.

Lemma consumer_main_drained_inv pre id stop rb rb' evs :
  consumer_main_locked pre id stop rb = Ret (take_drained, rb', evs) ->
  count rb = 0 /\ shutdown rb' = true /\ (rb' = rb \/ rb' = set_shutdown rb).
Proof.
  intros H. apply consumer_main_locked_inv in H
    as [(? & _)|[(_ & -> & ? & _)|[(_ & -> & ? & ? & _)|(v & s0 & ? & _)]]];
    try done; auto.
Qed.

(** The calls of a successful Take wake the producer if it is blocked, and no
    consumer. *)
Lemma deliver_take_success l p cs p' cs' :
  deliver [cond_signal not_full; mutex_unlock; printf l] (p, cs) (p', cs') ->
  p' = wake_producer p /\ cs' = cs.
Proof.
  intros H.
  apply deliver_cons_inv in H as ([p1 cs1] & H1 & H).
  apply deliver_cons_inv in H as ([p2 cs2] & H2 & H).
  apply deliver_cons_inv in H as ([p3 cs3] & H3 & H).
  apply deliver_nil_inv in H. inversion H1; inversion H2; inversion H3.
  by simplify_eq.
Qed.

(** C1. Take never discards buffered items across shutdown. For a buffer
    of the data model and either entry of the consumer's critical section
    ([pre = [mutex_lock]] from the top of the loop, [pre = []] when woken):
    with [shutdown] set and [count = 0] Take returns shutdown-drained and
    leaves the buffer as it is; with [count <> 0], [shutdown] set or not, it
    returns the value at [head], advances [head] modulo the capacity,
    decrements [count], increments [consumed_total], signals [not_full] once
    (which wakes the producer if it is blocked, and nobody else) and reports
    success; the test after the wait loop (line 180) is exactly
    this alternative; on an empty buffer that is not shut down Take does not
    return but waits on [not_empty] (or, having read the stop flag, turns the
    shutdown on and is then in the first case); and Take only ever returns
    shutdown-drained from an empty buffer whose cells are untouched. *)
Theorem take_drains_before_exit pre id stop rb :
  rb_wf rb ->
  (shutdown rb = true -> count rb = 0 ->
   consumer_main_locked pre id stop rb =
   Ret (take_drained, rb, pre ++ [mutex_unlock; printf (line_consumer_closes id)])) /\
  (count rb <> 0 ->
   exists v, data rb !! Z.to_nat (head rb) = Some v /\
     consumer_main_locked pre id stop rb =
     Ret (take_success v,
          mk_ring_buffer (data rb) (size rb) ((head rb + 1) mod size rb) (tail rb)
            (count rb - 1) (shutdown rb) (produced_total rb)
            ((consumed_total rb + 1) mod ULONG_MODULUS),
          pre ++ [cond_signal not_full; mutex_unlock;
                  printf (line_consumed id v (count rb - 1))])) /\
  (~ (shutdown rb = true /\ count rb = 0) ->
   exists v, data rb !! Z.to_nat (head rb) = Some v /\
     consumer_main_decide pre id rb =
     Ret (take_success v, dequeued rb,
          pre ++ [cond_signal not_full; mutex_unlock;
                  printf (line_consumed id v (count rb - 1))])) /\
  (count rb = 0 -> shutdown rb = false ->
   consumer_main_locked pre id false rb =
     Ret (take_blocked, rb, pre ++ [cond_wait not_empty]) /\
   consumer_main_locked pre id true rb =
     Ret (take_drained, set_shutdown rb,
          (pre ++ [cond_broadcast not_empty; cond_broadcast not_full]) ++
          [mutex_unlock; printf (line_consumer_closes id)])) /\
  (forall rb' evs,
   consumer_main_locked pre id stop rb = Ret (take_drained, rb', evs) ->
   count rb = 0 /\ shutdown rb' = true /\ count rb' = 0 /\
   data rb' = data rb /\ head rb' = head rb /\ tail rb' = tail rb /\
   consumed_total rb' = consumed_total rb) /\
  (forall l p cs p' cs',
   deliver [cond_signal not_full; mutex_unlock; printf l] (p, cs) (p', cs') ->
   p' = wake_producer p /\ cs' = cs).
Proof.
  intros Hwf. split; [|split; [|split; [|split; [|split]]]].
  - intros Hs Hc. unfold consumer_main_locked. rewrite Hs, Hc. cbn.
    by apply consumer_main_decide_drained.
  - intros Hc.
    destruct (consumer_main_decide_success pre id rb Hwf) as (v & Hv & Hd);
      [tauto|].
    exists v. split; [done|]. unfold consumer_main_locked.
    by rewrite (proj2 (Z.eqb_neq _ _) Hc).
  - by apply consumer_main_decide_success.
  - intros Hc Hs. unfold consumer_main_locked. rewrite Hs, Hc. cbn.
    split; [done|]. by apply consumer_main_decide_drained.
  - intros rb' evs H.
    apply consumer_main_drained_inv in H as (Hc & Hs & [->| ->]); by cbn.
  - intros l p cs p' cs'. apply deliver_take_success.
Qed.

(** ** The Put protocol *)

Lemma buffer_change_shutdown rb a rb' :
  buffer_change rb a rb' -> shutdown rb = true ->
  shutdown rb' = true /\ forall v, a <> act_put v.
Proof.
  intros [a' Ha|a' Ha|v st rb1 Hs _ _|i v st rb1 _ Hd] Hsh.
  - split; [done|]. intros v ->. done.
  - split; [done|]. intros v ->. done.
  - congruence.
  - apply rb_dequeue_inv in Hd as (_ & _ & _ & _ & ->). by split.
Qed.

(** C2. Put is atomic on rejection: with [shutdown] set, Put returns
    shutdown-rejected and leaves every field of the buffer as it is, both
    when the flag is seen on entry (line 142) and when it is seen by a
    producer woken from its wait (line 147); and from a buffer with
    [shutdown] set no transition of the system is a successful Put, nor
    clears the flag: after shutdown, Put always fails. *)
Theorem put_rejected_after_shutdown value rb :
  shutdown rb = true ->
  producer_main_put value rb =
    Ret (put_rejected, rb, [mutex_lock; mutex_unlock; printf line_producer_closes]) /\
  producer_main_resume value rb =
    Ret (put_rejected, rb, [mutex_unlock; printf line_producer_closes]) /\
  (forall s a s', buffer s = rb -> step s a s' ->
   shutdown (buffer s') = true /\ forall v, a <> act_put v).
Proof.
  intros Hs. split; [|split].
  - unfold producer_main_put. by rewrite Hs.
  - unfold producer_main_resume, producer_main_locked. rewrite Hs.
    by rewrite andb_false_r.
  - intros s a s' <- Hstep. apply step_buffer_change in Hstep.
    by apply buffer_change_shutdown with (rb := buffer s).
Qed.

(** The calls of a successful Put wake at most one consumer and nobody
    else. *)
Lemma deliver_put_success l p cs p' cs' :
  deliver [printf l; cond_signal not_empty; mutex_unlock] (p, cs) (p', cs') ->
  p' = p /\ wake_one cs cs'.
Proof.
  intros H.
  apply deliver_cons_inv in H as ([p1 cs1] & H1 & H).
  apply deliver_cons_inv in H as ([p2 cs2] & H2 & H).
  apply deliver_cons_inv in H as ([p3 cs3] & H3 & H).
  apply deliver_nil_inv in H. inversion H1; inversion H2; inversion H3.
  by simplify_eq.
Qed.

(** C5, as the code has it. Successful Put: on a buffer of the data model
    with [count < size] and [shutdown] clear, and for every value below
    [INT_MAX], Put writes the value into the cell at [tail] and into no
    other cell, advances [tail] to [(tail + 1) mod size], adds one to
    [count] and to [produced_total], leaves [size], [head], [shutdown] and
    [consumed_total] alone, calls [pthread_cond_signal] on [not_empty] once
    and no broadcast, which wakes one blocked consumer if there is one and
    nobody otherwise, and reports success. The bound on the value is the
    producer's counter: the critical section is this buffer update followed
    by [value + 1] as an [int] (line 151, before the signal of line 153),
    for every value. *)
Theorem put_success_postcondition pre value rb :
  rb_wf rb -> count rb < size rb -> shutdown rb = false ->
  rb_enqueue rb value =
    Ret (0, mk_ring_buffer (<[Z.to_nat (tail rb) := value]> (data rb)) (size rb)
              (head rb) ((tail rb + 1) mod size rb) (count rb + 1) false
              ((produced_total rb + 1) mod ULONG_MODULUS) (consumed_total rb)) /\
  producer_main_locked pre value rb =
    (next ← int_of (value + 1);
     mret (put_success next,
           mk_ring_buffer (<[Z.to_nat (tail rb) := value]> (data rb)) (size rb)
             (head rb) ((tail rb + 1) mod size rb) (count rb + 1) false
             ((produced_total rb + 1) mod ULONG_MODULUS) (consumed_total rb),
           pre ++ [printf (line_produced value (count rb + 1));
                   cond_signal not_empty; mutex_unlock])) /\
  (INT_MIN <= value < INT_MAX ->
   producer_main_locked pre value rb =
     Ret (put_success (value + 1),
          mk_ring_buffer (<[Z.to_nat (tail rb) := value]> (data rb)) (size rb)
            (head rb) ((tail rb + 1) mod size rb) (count rb + 1) false
            ((produced_total rb + 1) mod ULONG_MODULUS) (consumed_total rb),
          pre ++ [printf (line_produced value (count rb + 1));
                  cond_signal not_empty; mutex_unlock])) /\
  producer_main_put value rb = producer_main_locked [mutex_lock] value rb /\
  <[Z.to_nat (tail rb) := value]> (data rb) !! Z.to_nat (tail rb) = Some value /\
  (forall i, i <> Z.to_nat (tail rb) ->
     <[Z.to_nat (tail rb) := value]> (data rb) !! i = data rb !! i) /\
  (forall p cs p' cs',
     deliver [printf (line_produced value (count rb + 1));
              cond_signal not_empty; mutex_unlock] (p, cs) (p', cs') ->
     p' = p /\ wake_one cs cs').
Proof.
  intros Hwf Hc Hs.
  assert (rb_enqueue rb value =
          Ret (0, mk_ring_buffer (<[Z.to_nat (tail rb) := value]> (data rb))
                    (size rb) (head rb) ((tail rb + 1) mod size rb)
                    (count rb + 1) false
                    ((produced_total rb + 1) mod ULONG_MODULUS)
                    (consumed_total rb))) as He.
  { rewrite rb_enqueue_wf by done. unfold enqueued. by rewrite Hs. }
  assert (producer_main_locked pre value rb =
          (next ← int_of (value + 1);
           mret (put_success next,
                 mk_ring_buffer (<[Z.to_nat (tail rb) := value]> (data rb))
                   (size rb) (head rb) ((tail rb + 1) mod size rb)
                   (count rb + 1) false
                   ((produced_total rb + 1) mod ULONG_MODULUS)
                   (consumed_total rb),
                 pre ++ [printf (line_produced value (count rb + 1));
                         cond_signal not_empty; mutex_unlock]))) as Hsec.
  { unfold producer_main_locked.
    rewrite (proj2 (Z.eqb_neq _ _)) by lia. rewrite Hs. cbn.
    by rewrite He. }
  split; [done|]. split; [done|]. split; [|split; [|split; [|split]]].
  - intros Hv. rewrite Hsec. by rewrite int_of_in_range by lia.
  - unfold producer_main_put. by rewrite Hs.
  - destruct Hwf. apply list_lookup_insert_eq. lia.
  - intros i Hi. by apply list_lookup_insert_ne.
  - intros p cs p' cs'. apply deliver_put_success.
Qed.

(** ** Memory safety *)

Lemma rb_enqueue_in_bounds rb value :
  0 <= tail rb < Z.of_nat (length (data rb)) ->
  rb_enqueue rb value <> Undef OutOfBounds.
Proof.
  intros Ht. unfold rb_enqueue. rewrite store_in_bounds by done. cbn.
  unfold int_of, int_rem. repeat (case_decide; cbn); discriminate.
Qed.

Lemma rb_dequeue_in_bounds rb :
  0 <= head rb < Z.of_nat (length (data rb)) ->
  rb_dequeue rb <> Undef OutOfBounds.
Proof.
  intros Hh. unfold rb_dequeue.
  destruct (load_in_bounds (data rb) (head rb) Hh) as (out & _ & ->). cbn.
  unfold int_of, int_rem. repeat (case_decide; cbn); discriminate.
Qed.

(** On a buffer that satisfies the data model both critical sections are
    defined, but for the step of the producer's counter past [INT_MAX]. *)
Lemma consumer_main_locked_defined pre id stop rb :
  rb_wf rb -> exists r, consumer_main_locked pre id stop rb = Ret r.
Proof.
  intros Hwf.
  assert (forall pre' rb', rb_wf rb' ->
            exists r, consumer_main_decide pre' id rb' = Ret r) as Hdec.
  { intros pre' rb' Hwf'.
    destruct (decide (shutdown rb' = true /\ count rb' = 0)) as [[Hs Hc]|Hn].
    - rewrite consumer_main_decide_drained by done. by eexists.
    - destruct (consumer_main_decide_success pre' id rb' Hwf' Hn)
        as (v & _ & ->). by eexists. }
  unfold consumer_main_locked.
  destruct ((count rb =? 0) && negb (shutdown rb)); [destruct stop|].
  - apply Hdec. destruct Hwf. by constructor.
  - by eexists.
  - by apply Hdec.
Qed.

Lemma producer_main_locked_defined pre value rb :
  rb_wf rb ->
  producer_main_locked pre value rb <> Undef OutOfBounds /\
  (INT_MIN <= value < INT_MAX ->
   exists r, producer_main_locked pre value rb = Ret r).
Proof.
  intros Hwf. unfold producer_main_locked.
  destruct (count rb =? size rb) eqn:Hc, (shutdown rb) eqn:Hs; cbn;
    try (split; [discriminate|intros _; by eexists]).
  apply Z.eqb_neq in Hc.
  rewrite rb_enqueue_wf by (destruct Hwf; done || lia). cbn.
  unfold int_of. case_decide; cbn.
  - split; [discriminate|intros _; by eexists].
  - split; [discriminate|intros Hv; lia].
Qed.

(** C10. Indexing safety of the ring operations: with a positive capacity,
    a block of that many cells (as [rb_init] allocates) and [head], [tail]
    in [[0, size)], the store to [data[tail]] of [rb_enqueue] and the load of
    [data[head]] of [rb_dequeue] are inside the block, so neither operation
    ever takes the out-of-bounds branch; with the fill level of the claim
    ([count < size] to enqueue, [count > 0] to dequeue) and a capacity that
    is an [int], both are defined altogether. In particular no state
    reached by the program lets either operation, or the critical section
    that calls it, leave the block. *)
Theorem ring_accesses_in_bounds rb value :
  0 < size rb -> Z.of_nat (length (data rb)) = size rb ->
  0 <= head rb < size rb -> 0 <= tail rb < size rb ->
  store (data rb) (tail rb) value = Ret (<[Z.to_nat (tail rb) := value]> (data rb)) /\
  (exists out, data rb !! Z.to_nat (head rb) = Some out /\
               load (data rb) (head rb) = Ret out) /\
  rb_enqueue rb value <> Undef OutOfBounds /\
  rb_dequeue rb <> Undef OutOfBounds /\
  (size rb <= INT_MAX -> 0 <= count rb < size rb ->
   rb_enqueue rb value = Ret (0, enqueued rb value)) /\
  (size rb <= INT_MAX -> 0 < count rb <= size rb ->
   exists out, data rb !! Z.to_nat (head rb) = Some out /\
               rb_dequeue rb = Ret (0, out, dequeued rb)) /\
  (forall junk sz rb0, 0 <= sz -> rb_init (Some junk) sz = Some rb0 ->
   Z.of_nat (length (data rb0)) = sz) /\
  (forall junk sz N tr s,
   1 <= sz <= INT_MAX -> reachable junk sz N tr s ->
   (forall v, rb_enqueue (buffer s) v <> Undef OutOfBounds) /\
   rb_dequeue (buffer s) <> Undef OutOfBounds /\
   (forall pre v, producer_main_locked pre v (buffer s) <> Undef OutOfBounds) /\
   (forall pre id stop,
    exists r, consumer_main_locked pre id stop (buffer s) = Ret r)).
Proof.
  intros Hs Hd Hh Ht.
  destruct (load_in_bounds (data rb) (head rb)) as (out & Hout & Hld); [lia|].
  split; [apply store_in_bounds; lia|]. split; [by exists out|].
  split; [apply rb_enqueue_in_bounds; lia|].
  split; [apply rb_dequeue_in_bounds; lia|].
  split; [|split; [|split]].
  - intros Hm Hc. apply rb_enqueue_wf; [constructor; lia|lia].
  - intros Hm Hc. apply rb_dequeue_wf. constructor; lia.
  - intros junk sz rb0 Hsz [= <-]. cbn. unfold malloc_int.
    rewrite length_fmap, length_seq. lia.
  - intros junk sz N tr s Hsz Hr.
    destruct (reachable_ring_inv junk sz N tr s Hsz Hr) as [[Hwf _] _].
    split; [|split; [|split]].
    + intros v. apply rb_enqueue_in_bounds. destruct Hwf. lia.
    + apply rb_dequeue_in_bounds. destruct Hwf. lia.
    + intros pre v. by apply producer_main_locked_defined.
    + intros pre id stop. by apply consumer_main_locked_defined.
Qed.

(** ** Shutdown *)

Lemma set_shutdown_id rb : shutdown rb = true -> set_shutdown rb = rb.
Proof. destruct rb; cbn. by intros ->. Qed.

Lemma reachable_deliver_nobody junk sz N tr s evs p' cs' :
  reachable junk sz N tr s -> shutdown (buffer s) = true ->
  deliver evs (producer s, consumers s) (p', cs') ->
  p' = producer s /\ cs' = consumers s.
Proof.
  intros Hr Hs Hdel. destruct (reachable_sys_inv _ _ _ _ _ Hr) as [_ Hw _ _ _ _ _].
  by apply deliver_nobody with (evs := evs); [|apply Hw].
Qed.

(** C6. TriggerShutdown is idempotent. With [shutdown] clear, each caller
    (the watcher, the producer that has read the stop flag, [main] on a
    failed thread start, a consumer that has read the stop flag on an empty
    buffer) sets the flag and broadcasts on both condition variables, which
    leaves no thread blocked. With [shutdown] already set, the watcher does
    nothing between lock and unlock, the consumer's call is not reached, and
    the unguarded sequences of the producer and of [main] leave the buffer
    as it is; their repeated broadcasts find no thread to wake in any
    reachable state, because no thread stays blocked once the flag is set.
    Whatever two callers are chained, the buffer after the second call is
    the buffer after the first. *)
Theorem trigger_shutdown_idempotent rb :
  (shutdown rb = false ->
   (forall t, (trigger_shutdown t rb).1 = set_shutdown rb /\
              cond_broadcast not_empty ∈ (trigger_shutdown t rb).2 /\
              cond_broadcast not_full ∈ (trigger_shutdown t rb).2) /\
   (count rb = 0 -> forall pre id,
    consumer_main_locked pre id true rb =
      Ret (take_drained, set_shutdown rb,
           (pre ++ [cond_broadcast not_empty; cond_broadcast not_full]) ++
           [mutex_unlock; printf (line_consumer_closes id)])) /\
   (forall evs t t',
    cond_broadcast not_empty ∈ evs -> cond_broadcast not_full ∈ evs ->
    deliver evs t t' -> nobody_waiting t'.1 t'.2)) /\
  (shutdown rb = true ->
   shutdown_watcher rb = (rb, [mutex_lock; mutex_unlock]) /\
   (forall t, (trigger_shutdown t rb).1 = rb) /\
   (forall pre id stop,
    consumer_main_locked pre id stop rb = consumer_main_decide pre id rb) /\
   (forall junk sz N tr s t p' cs',
    reachable junk sz N tr s -> buffer s = rb ->
    deliver (trigger_shutdown t rb).2 (producer s, consumers s) (p', cs') ->
    p' = producer s /\ cs' = consumers s)) /\
  (forall t1 t2,
   (trigger_shutdown t2 (trigger_shutdown t1 rb).1).1 = (trigger_shutdown t1 rb).1 /\
   (trigger_shutdown t2 (set_shutdown rb)).1 = set_shutdown rb /\
   shutdown (trigger_shutdown t1 rb).1 = true).
Proof.
  split; [|split].
  - intros Hs. split; [|split].
    + intros []; cbn; unfold shutdown_watcher; rewrite ?Hs; cbn;
        (split; [done|split; in_list]).
    + intros Hc pre id. unfold consumer_main_locked. rewrite Hs, Hc. cbn.
      by apply consumer_main_decide_drained.
    + intros evs t t' Hbe Hbf Hdel.
      destruct (deliver_broadcast _ _ _ Hdel) as [He Hf].
      split; [by apply Hf|by apply He].
  - intros Hs. split; [|split; [|split]].
    + unfold shutdown_watcher. by rewrite Hs.
    + intros []; cbn; unfold shutdown_watcher; rewrite ?Hs; cbn;
        by rewrite ?set_shutdown_id.
    + intros pre id stop. unfold consumer_main_locked.
      by rewrite Hs, andb_false_r.
    + intros junk sz N tr s t p' cs' Hr <- Hdel.
      by eapply reachable_deliver_nobody.
  - intros t1 t2. unfold trigger_shutdown, shutdown_watcher, producer_main_stop,
      main_abort.
    destruct rb as [d sz h t c [] p q], t1, t2; by cbn.
Qed.

(** ** The final report *)

Lemma step_summary_inv s p c k s' :
  step s (act_summary p c k) s' ->
  all_exited s /\ p = produced_total (buffer s) /\
  c = consumed_total (buffer s) /\ k = count (buffer s) /\ s' = s.
Proof.
  remember (act_summary p c k) as a eqn:Ha. intros Hstep.
  destruct Hstep as [| | | |? ? st|? ? st|? ? st|? ? st| | |s rb' evs Hall Hsec];
    try discriminate Ha; try (destruct st; discriminate Ha).
  injection Ha as -> -> ->. injection Hsec as <- <-.
  repeat split; try apply Hall. by destruct s.
Qed.

Lemma step_all_exited s a s' :
  all_exited s -> step s a s' -> buffer s' = buffer s.
Proof.
  intros (Hw & Hp & Hc) Hstep.
  assert (forall i c, consumers s !! i = Some c -> c = c_exited) as Hc'.
  { intros i c Hi. apply Hc, list_elem_of_lookup. by exists i. }
  destruct Hstep as [s|s rb' evs p' cs' Hw' _ _ _|s v rb' evs p' cs' Hp' _ _ _
                    |s v Hp' _|s v st rb' evs p' cs' Hp' _ _
                    |s v st rb' evs p' cs' Hp' _ _
                    |s i st rb' evs p' cs' Hi _ _|s i st rb' evs p' cs' Hi _ _
                    |s v Hp'|s i Hi|s rb' evs _ Hsec];
    try congruence; try (apply Hc' in Hi; discriminate Hi); try done.
  by injection Hsec as <- <-.
Qed.

(** C9, as the code has it. The final report of [main] reads
    [produced_total], [consumed_total] and [count] and changes no field of
    the buffer; it makes no call on the mutex: it runs after every thread has
    been joined, when no transition of any thread can touch the buffer any
    more. *)
Theorem final_report_after_join s :
  main_summary (buffer s) =
    (buffer s,
     [printf line_summary;
      printf (line_summary_produced (produced_total (buffer s)));
      printf (line_summary_consumed (consumed_total (buffer s)));
      printf (line_summary_remaining (count (buffer s)))]) /\
  (mutex_lock ∉ (main_summary (buffer s)).2) /\
  (forall p c k s', step s (act_summary p c k) s' ->
   all_exited s /\ p = produced_total (buffer s) /\
   c = consumed_total (buffer s) /\ k = count (buffer s) /\ s' = s) /\
  (all_exited s -> forall a s', step s a s' -> buffer s' = buffer s).
Proof.
  split; [done|]. split; [|split].
  - cbn. intros H.
    repeat (apply elem_of_cons in H as [?|H]; [discriminate|]).
    by apply elem_of_nil in H.
  - intros p c k s'. apply step_summary_inv.
  - intros Hall a s'. by apply step_all_exited.
Qed.

(** C9 as stated fails: the report of a drained buffer is not made between
    [pthread_mutex_lock] and [pthread_mutex_unlock]. *)
Lemma final_report_not_lock_protected :
  (main_summary sample_rb_drained).2 =
    [printf line_summary; printf (line_summary_produced 1);
     printf (line_summary_consumed 1); printf (line_summary_remaining 0)] /\
  ~ lock_protected (main_summary sample_rb_drained).2.
Proof. split; [done|]. intros [body Hb]. discriminate Hb. Qed.

(** ** The producer's counter *)

Lemma producer_main_locked_overflow pre rb :
  rb_wf rb -> count rb < size rb -> shutdown rb = false ->
  producer_main_locked pre INT_MAX rb = Undef SignedOverflow.
Proof.
  intros Hwf Hc Hs. unfold producer_main_locked.
  rewrite (proj2 (Z.eqb_neq _ _)) by lia. rewrite Hs. cbn.
  by rewrite rb_enqueue_wf.
Qed.

Lemma producer_main_locked_next pre value rb :
  rb_wf rb -> count rb < size rb -> shutdown rb = false ->
  INT_MIN <= value < INT_MAX ->
  producer_main_locked pre value rb =
  Ret (put_success (value + 1), enqueued rb value,
       pre ++ [printf (line_produced value (count rb + 1));
               cond_signal not_empty; mutex_unlock]).
Proof.
  intros Hwf Hc Hs Hv. unfold producer_main_locked.
  rewrite (proj2 (Z.eqb_neq _ _)) by lia. rewrite Hs. cbn.
  rewrite rb_enqueue_wf by done. cbn.
  by rewrite int_of_in_range by lia.
Qed.

(** C8, as the code has it. The values of the successful Puts of a run are
    1, 2, 3, ... in this order, and the producer's counter is one more than
    their number; a successful Put of a value below [INT_MAX] leaves the
    counter at the next integer. The code does not handle the overflow of
    the counter: with the counter at [INT_MAX], the increment that follows
    the enqueue is a signed overflow, which C leaves undefined. *)
Theorem producer_values_count_up junk sz N tr s :
  1 <= sz <= INT_MAX -> reachable junk sz N tr s ->
  puts_of tr = seqZ 1 (Z.of_nat (length (puts_of tr))) /\
  (forall v, producer_value (producer s) = Some v ->
             v = Z.of_nat (length (puts_of tr)) + 1) /\
  (count (buffer s) < size (buffer s) -> shutdown (buffer s) = false ->
   forall pre,
   (forall value, INT_MIN <= value < INT_MAX ->
    producer_main_locked pre value (buffer s) =
    Ret (put_success (value + 1), enqueued (buffer s) value,
         pre ++ [printf (line_produced value (count (buffer s) + 1));
                 cond_signal not_empty; mutex_unlock])) /\
   producer_main_locked pre INT_MAX (buffer s) = Undef SignedOverflow).
Proof.
  intros Hsz Hr.
  destruct (reachable_sys_inv _ _ _ _ _ Hr) as [_ _ _ _ _ Hputs Hval].
  destruct (reachable_ring_inv _ _ _ _ _ Hsz Hr) as [[Hwf _] _].
  split; [done|]. split; [done|]. intros Hc Hs pre. split.
  - intros value Hv. by apply producer_main_locked_next.
  - by apply producer_main_locked_overflow.
Qed.

(** ** Sample runs *)

Lemma deliver_nobody_total evs p cs :
  nobody_waiting p cs -> deliver evs (p, cs) (p, cs).
Proof.
  intros [Hp Hc]. induction evs as [|e evs IH]; [constructor|].
  assert (wake_producer p = p) as Hwp.
  { destruct p; try done. by destruct (Hp value). }
  assert (wake_consumer <$> cs = cs) as Hwc.
  { apply (wakes_c_nobody cs); [apply wake_all_wakes|done]. }
  apply deliver_cons with (t2 := (p, cs)); [|done].
  destruct e as [| |c|[]|[]|l]; try constructor.
  - by apply wake_one_none.
  - rewrite <- Hwp at 2. constructor.
  - rewrite <- Hwc at 2. constructor.
  - rewrite <- Hwp at 2. constructor.
Qed.

Lemma nobody_waiting_running p :
  (forall v, p <> p_waiting v) -> nobody_waiting p [c_loop].
Proof.
  intros Hp. split; [done|].
  intros [?|H]%elem_of_cons; [discriminate|]. by apply elem_of_nil in H.
Qed.

Lemma sample_reachable : reachable zero_heap 2 1 sample_trace sample_system.
Proof.
  pose (rb0 := mk_ring_buffer [0; 0] 2 0 0 0 false 0 0).
  pose (rb1 := mk_ring_buffer [1; 0] 2 0 1 1 false 1 0).
  pose (s1 := mk_system rb0 false (p_sleep 1) [c_loop] w_polling).
  pose (s2 := mk_system rb1 false (p_check 2) [c_loop] w_polling).
  exists rb0. split; [done|].
  change sample_trace
    with ((([] ++ [act_producer_go]) ++ [act_put 1]) ++ [act_take 0 1]).
  apply run_snoc with (s1 := s2);
    [apply run_snoc with (s1 := s1);
       [apply run_snoc with (s1 := start rb0 1); [apply run_nil|]|]|].
  - exact (step_producer_go (start rb0 1) 1 eq_refl eq_refl).
  - refine (step_put s1 1 (put_success 2) rb1
              [mutex_lock; printf (line_produced 1 1); cond_signal not_empty;
               mutex_unlock] (p_sleep 1) [c_loop] eq_refl eq_refl _).
    by apply deliver_nobody_total, nobody_waiting_running.
  - refine (step_take s2 0%nat (take_success 1) (buffer sample_system)
              [mutex_lock; cond_signal not_full; mutex_unlock;
               printf (line_consumed 1 1 0)] (p_check 2) [c_loop]
              eq_refl eq_refl _).
    by apply deliver_nobody_total, nobody_waiting_running.
Qed.

Lemma sample_rb_wf : rb_wf sample_rb.
Proof. by constructor. Qed.

Lemma sample_rb_closing_wf : rb_wf sample_rb_closing.
Proof. by constructor. Qed.

Lemma sample_rb_drained_wf : rb_wf sample_rb_drained.
Proof. by constructor. Qed.

Lemma rounds_rb_wf n : rb_wf (rounds_rb n).
Proof. by constructor. Qed.

Lemma rounds_step n :
  0 <= n -> n + 1 < INT_MAX ->
  exists s1 s2,
    step (rounds_system n) act_producer_go s1 /\
    step s1 (act_put (n + 1)) s2 /\
    step s2 (act_take 0 (n + 1)) (rounds_system (n + 1)).
Proof.
  intros Hn Hmax.
  pose (rb1 := enqueued (rounds_rb n) (n + 1)).
  pose (s1 := mk_system (rounds_rb n) false (p_sleep (n + 1)) [c_loop] w_polling).
  pose (s2 := mk_system rb1 false (p_check (n + 1 + 1)) [c_loop] w_polling).
  assert (rb_wf rb1) as Hwf1 by by constructor.
  exists s1, s2. split; [|split].
  - exact (step_producer_go (rounds_system n) (n + 1) eq_refl eq_refl).
  - refine (step_put s1 (n + 1) (put_success (n + 1 + 1)) rb1
              ([mutex_lock] ++ [printf (line_produced (n + 1) 1);
                                cond_signal not_empty; mutex_unlock])
              (p_sleep (n + 1)) [c_loop] eq_refl _ _).
    + apply (producer_main_locked_next [mutex_lock] (n + 1) (rounds_rb n));
        [apply rounds_rb_wf|done|done|unfold INT_MIN; lia].
    + by apply deliver_nobody_total, nobody_waiting_running.
  - assert (rounds_rb (n + 1) = dequeued rb1) as Hrb.
    { unfold rounds_rb, dequeued, rb1, enqueued. cbn.
      by rewrite Zplus_mod_idemp_l. }
    destruct (consumer_main_decide_success [mutex_lock] (consumer_id 0) rb1 Hwf1)
      as (v & Hv & Hd); [by intros [? _]|].
    injection Hv as <-.
    unfold rounds_system. rewrite Hrb.
    refine (step_take s2 0%nat (take_success (n + 1)) (dequeued rb1)
              _ (p_check (n + 1 + 1)) [c_loop] eq_refl Hd _).
    by apply deliver_nobody_total, nobody_waiting_running.
Qed.

Lemma rounds_run (n : nat) :
  Z.of_nat n < INT_MAX ->
  run (start (rounds_rb 0) 1) (rounds_trace n) (rounds_system (Z.of_nat n)).
Proof.
  induction n as [|n IH]; intros Hn.
  - apply run_nil.
  - destruct (rounds_step (Z.of_nat n)) as (s1 & s2 & H1 & H2 & H3); [lia..|].
    replace (Z.of_nat (S n)) with (Z.of_nat n + 1) by lia.
    change (rounds_trace (S n))
      with (rounds_trace n ++
            [act_producer_go; act_put (Z.of_nat n + 1);
             act_take 0 (Z.of_nat n + 1)]).
    replace (rounds_trace n ++
             [act_producer_go; act_put (Z.of_nat n + 1);
              act_take 0 (Z.of_nat n + 1)])
      with (((rounds_trace n ++ [act_producer_go]) ++
             [act_put (Z.of_nat n + 1)]) ++ [act_take 0 (Z.of_nat n + 1)])
      by by rewrite <- !app_assoc.
    eapply run_snoc; [eapply run_snoc; [eapply run_snoc; [apply IH; lia|]|]|];
      eassumption.
Qed.

(** C8 as stated fails: the overflow of the producer's counter is not
    defined. After [INT_MAX - 1] rounds of Put and Take on a buffer of one
    cell the producer is about to put [INT_MAX] into a buffer with room, and
    the critical section (lines 141-154) then runs into the signed overflow
    of [value++]; so does any Put of [INT_MAX] that finds room, as on
    [sample_rb]. *)
Lemma producer_counter_overflow_undefined :
  (exists tr s,
     reachable zero_heap 1 1 tr s /\
     producer s = p_sleep INT_MAX /\
     shutdown (buffer s) = false /\ count (buffer s) < size (buffer s) /\
     producer_main_put INT_MAX (buffer s) = Undef SignedOverflow) /\
  producer_main_put INT_MAX sample_rb = Undef SignedOverflow /\
  ~ (exists r, producer_main_put INT_MAX sample_rb = Ret r).
Proof.
  assert (producer_main_put INT_MAX sample_rb = Undef SignedOverflow) as Hsample.
  { apply (producer_main_locked_overflow [mutex_lock]); [|done..].
    apply sample_rb_wf. }
  split; [|split].
  - exists (rounds_trace (Z.to_nat (INT_MAX - 1)) ++ [act_producer_go]).
    exists (mk_system (rounds_rb (INT_MAX - 1)) false (p_sleep INT_MAX)
              [c_loop] w_polling).
    split; [|split; [done|split; [done|split; [done|]]]].
    + exists (rounds_rb 0). split; [done|].
      apply run_snoc with (s1 := rounds_system (INT_MAX - 1)).
      * rewrite <- (Z2Nat.id (INT_MAX - 1)) at 2 by done.
        apply rounds_run. rewrite Z2Nat.id by done. done.
      * exact (step_producer_go (rounds_system (INT_MAX - 1)) INT_MAX
                 eq_refl eq_refl).
    + apply (producer_main_locked_overflow [mutex_lock]); [|done..].
      apply rounds_rb_wf.
  - exact Hsample.
  - intros [r Hr]. rewrite Hsample in Hr. discriminate Hr.
Qed.

(** C5 as stated fails: [sample_rb] has room and is not shut down, yet the
    Put of [INT_MAX] does not return success: after the enqueue the critical
    section increments the producer's counter (line 151), a signed overflow,
    before it reaches the signal and the unlock; the same holds for a
    producer woken from its wait. *)
Lemma put_of_int_max_does_not_succeed :
  rb_wf sample_rb /\ count sample_rb < size sample_rb /\
  shutdown sample_rb = false /\
  producer_main_put INT_MAX sample_rb = Undef SignedOverflow /\
  producer_main_resume INT_MAX sample_rb = Undef SignedOverflow /\
  ~ (exists st rb' evs,
       producer_main_put INT_MAX sample_rb = Ret (st, rb', evs)).
Proof.
  assert (forall pre,
            producer_main_locked pre INT_MAX sample_rb = Undef SignedOverflow)
    as Hover.
  { intros pre. apply producer_main_locked_overflow; [|done..].
    apply sample_rb_wf. }
  split; [apply sample_rb_wf|]. split; [done|]. split; [done|].
  split; [apply (Hover [mutex_lock])|]. split; [apply (Hover [])|].
  intros (st & rb' & evs & H).
  change (producer_main_put INT_MAX sample_rb)
    with (producer_main_locked [mutex_lock] INT_MAX sample_rb) in H.
  rewrite Hover in H. discriminate H.
Qed.

(** ** The theorems at the sample states *)

Lemma take_drains_before_exit_witness :
  rb_wf sample_rb_closing /\
  (exists v, data sample_rb_closing !! Z.to_nat (head sample_rb_closing) = Some v /\
     consumer_main_take 1 false sample_rb_closing =
     Ret (take_success v,
          mk_ring_buffer [7; 0] 2 1 1 0 true 1 1,
          [mutex_lock; cond_signal not_full; mutex_unlock;
           printf (line_consumed 1 v 0)])) /\
  consumer_main_take 1 false sample_rb_drained =
    Ret (take_drained, sample_rb_drained,
         [mutex_lock; mutex_unlock; printf (line_consumer_closes 1)]).
Proof.
  split; [apply sample_rb_closing_wf|]. split.
  - destruct (take_drains_before_exit [mutex_lock] 1 false sample_rb_closing
                sample_rb_closing_wf) as (_ & H & _).
    apply H. discriminate.
  - destruct (take_drains_before_exit [mutex_lock] 1 false sample_rb_drained
                sample_rb_drained_wf) as (H & _).
    apply H; reflexivity.
Defined.

Lemma put_rejected_after_shutdown_witness :
  shutdown sample_rb_closing = true /\
  producer_main_put 8 sample_rb_closing =
    Ret (put_rejected, sample_rb_closing,
         [mutex_lock; mutex_unlock; printf line_producer_closes]) /\
  producer_main_resume 8 sample_rb_closing =
    Ret (put_rejected, sample_rb_closing,
         [mutex_unlock; printf line_producer_closes]).
Proof.
  split; [reflexivity|].
  destruct (put_rejected_after_shutdown 8 sample_rb_closing eq_refl)
    as (H1 & H2 & _).
  split; [exact H1|exact H2].
Defined.

Lemma ring_invariant_witness :
  1 <= 2 <= INT_MAX /\ reachable zero_heap 2 1 sample_trace sample_system /\
  0 <= count (buffer sample_system) <= size (buffer sample_system) /\
  tail (buffer sample_system) =
    (head (buffer sample_system) + count (buffer sample_system))
      mod size (buffer sample_system).
Proof.
  assert (1 <= 2 <= INT_MAX) as Hsz by (unfold INT_MAX; lia).
  split; [exact Hsz|]. split; [exact sample_reachable|].
  destruct (ring_invariant zero_heap 2 1 sample_trace sample_system Hsz
              sample_reachable) as (H1 & _ & _ & H2 & _).
  split; [exact H1|exact H2].
Defined.

Lemma counter_invariant_witness :
  1 <= 2 <= INT_MAX /\ reachable zero_heap 2 1 sample_trace sample_system /\
  (produced_total (buffer sample_system) - consumed_total (buffer sample_system))
    mod ULONG_MODULUS = count (buffer sample_system).
Proof.
  assert (1 <= 2 <= INT_MAX) as Hsz by (unfold INT_MAX; lia).
  split; [exact Hsz|]. split; [exact sample_reachable|].
  destruct (counter_invariant zero_heap 2 1 sample_trace sample_system Hsz
              sample_reachable) as (_ & _ & _ & H & _).
  exact H.
Defined.

Lemma put_success_postcondition_witness :
  rb_wf sample_rb /\ INT_MIN <= 8 < INT_MAX /\
  count sample_rb < size sample_rb /\ shutdown sample_rb = false /\
  producer_main_put 8 sample_rb =
    Ret (put_success 9, mk_ring_buffer [7; 8] 2 0 0 2 false 2 0,
         [mutex_lock; printf (line_produced 8 2); cond_signal not_empty;
          mutex_unlock]).
Proof.
  assert (INT_MIN <= 8 < INT_MAX) as Hv by (unfold INT_MIN, INT_MAX; lia).
  assert (count sample_rb < size sample_rb) as Hc by (cbn; lia).
  split; [exact sample_rb_wf|]. split; [exact Hv|]. split; [exact Hc|].
  split; [reflexivity|].
  destruct (put_success_postcondition [mutex_lock] 8 sample_rb sample_rb_wf Hc
              eq_refl) as (_ & _ & H1 & H2 & _).
  rewrite H2. exact (H1 Hv).
Defined.

Lemma trigger_shutdown_idempotent_witness :
  (shutdown_watcher sample_rb).1 = sample_rb_closing /\
  shutdown_watcher sample_rb_closing = (sample_rb_closing, [mutex_lock; mutex_unlock]) /\
  (producer_main_stop sample_rb_closing).1 = sample_rb_closing /\
  (main_abort (producer_main_stop sample_rb).1).1 = (producer_main_stop sample_rb).1.
Proof.
  destruct (trigger_shutdown_idempotent sample_rb) as (H & _ & H4).
  destruct (H eq_refl) as (H1 & _).
  destruct (trigger_shutdown_idempotent sample_rb_closing) as (_ & H' & _).
  destruct (H' eq_refl) as (H2 & H3 & _).
  split; [exact (proj1 (H1 by_watcher))|]. split; [exact H2|].
  split; [exact (H3 by_producer)|exact (proj1 (H4 by_producer by_main))].
Defined.

Lemma no_lost_or_duplicated_items_witness :
  1 <= 2 <= INT_MAX /\ reachable zero_heap 2 1 sample_trace sample_system /\
  puts_of sample_trace = takes_of sample_trace ++ contents (buffer sample_system) /\
  takes_of sample_trace ≡ₚ puts_of sample_trace.
Proof.
  assert (1 <= 2 <= INT_MAX) as Hsz by (unfold INT_MAX; lia).
  split; [exact Hsz|]. split; [exact sample_reachable|].
  destruct (no_lost_or_duplicated_items zero_heap 2 1 sample_trace sample_system
              Hsz sample_reachable) as (H1 & H2 & _).
  split; [exact H1|]. apply H2. reflexivity.
Defined.

Lemma producer_values_count_up_witness :
  1 <= 2 <= INT_MAX /\ reachable zero_heap 2 1 sample_trace sample_system /\
  puts_of sample_trace = seqZ 1 (Z.of_nat (length (puts_of sample_trace))) /\
  producer_main_locked [] INT_MAX (buffer sample_system) = Undef SignedOverflow.
Proof.
  assert (1 <= 2 <= INT_MAX) as Hsz by (unfold INT_MAX; lia).
  split; [exact Hsz|]. split; [exact sample_reachable|].
  destruct (producer_values_count_up zero_heap 2 1 sample_trace sample_system
              Hsz sample_reachable) as (H1 & _ & H2).
  split; [exact H1|].
  assert (count (buffer sample_system) < size (buffer sample_system)) as Hc
    by (cbn; lia).
  destruct (H2 Hc eq_refl []) as (_ & H3). exact H3.
Defined.

Lemma final_report_after_join_witness :
  all_exited sample_finished /\
  main_summary (buffer sample_finished) =
    (sample_rb_drained,
     [printf line_summary; printf (line_summary_produced 1);
      printf (line_summary_consumed 1); printf (line_summary_remaining 0)]) /\
  (forall a s', step sample_finished a s' -> buffer s' = sample_rb_drained).
Proof.
  assert (all_exited sample_finished) as Hall.
  { split; [reflexivity|]. split; [reflexivity|].
    intros c Hc. apply list_elem_of_singleton in Hc. exact Hc. }
  destruct (final_report_after_join sample_finished) as (H1 & _ & _ & H2).
  split; [exact Hall|]. split; [exact H1|]. exact (H2 Hall).
Defined.

Lemma ring_accesses_in_bounds_witness :
  store (data sample_rb) (tail sample_rb) 8 = Ret [7; 8] /\
  rb_enqueue sample_rb 8 <> Undef OutOfBounds /\
  rb_dequeue sample_rb <> Undef OutOfBounds.
Proof.
  assert (0 < size sample_rb) as H1 by (cbn; lia).
  assert (0 <= head sample_rb < size sample_rb) as H2 by (cbn; lia).
  assert (0 <= tail sample_rb < size sample_rb) as H3 by (cbn; lia).
  destruct (ring_accesses_in_bounds sample_rb 8 H1 eq_refl H2 H3)
    as (Hs & _ & He & Hd & _).
  split; [exact Hs|]. split; [exact He|exact Hd].
Defined.
